(** * Job queue service (fastapi_app.py): model and verification

    A shallow embedding of
    [docs/problemsolutions/job-queue-service/src/fastapi_app.py].

    Conventions of the model
    - Python [float]s (time stamps, token counts, delays) are idealised as
      exact rationals [Q]; [min]/[max] follow Python's selection rule.
    - Python [int] counters are [Z].
    - The module-level globals form one record [State]; every coroutine is a
      function on it.  Under asyncio's cooperative scheduling the [lock] is
      never held across a suspension point, so a coroutine runs atomically
      between two real suspension points ([queue.get] on an empty queue,
      [asyncio.sleep], [queue.put] on a full queue).  A worker task is
      therefore a small control state ([wstate]) and the system a labelled
      transition function [step].
    - Every call of [now()] and every draw of [random.uniform] is an input of
      the function that performs it.
    - Only the in-memory idempotency backend (the default) is modelled. *)

From Stdlib Require Import ZArith QArith Qpower Qminmax Lqa Lia Bool.
From stdpp Require Import gmap strings list fin_maps.

Open Scope Z_scope.

(** ** Config *)

Definition Q_MAX : Z := 1000.
Definition WORKERS : nat := 4.
Definition MAX_ATTEMPTS : Z := 3.
Definition BACKOFF_BASE : Q := 1 # 10.
Definition BACKOFF_CAP : Q := 1.
Definition JITTER : Q := 2 # 10.

Definition RATE_CAPACITY : Q := 50.
Definition RATE_REFILL_PER_SEC : Q := 25.

Definition CLIENT_RATE_CAPACITY : Q := 10.
Definition CLIENT_RATE_REFILL_PER_SEC : Q := 5.

Definition IDEMP_TTL : Q := 600.

(** ** Python primitives *)

(** [a < b] and [a >= b] on floats. *)
Definition Qltb (a b : Q) : bool := negb (Qle_bool b a).
Definition Qgeb (a b : Q) : bool := Qle_bool b a.

(** Python's two-argument [min(a, b)]: [b] when [b < a], else [a]. *)
Definition py_min (a b : Q) : Q := if Qltb b a then b else a.
(** Python's two-argument [max(a, b)]: [b] when [b > a], else [a]. *)
Definition py_max (a b : Q) : Q := if Qltb a b then b else a.

(** Truthiness of an optional string ([None] and [""] are falsy). *)
Definition truthy (k : option string) : bool :=
  match k with
  | Some s => negb (String.eqb s "")
  | None => false
  end.

(** [a or b] on optional strings. *)
Definition py_or (a b : option string) : option string :=
  if truthy a then a else b.

(** [l[start:]] for a possibly negative [start]. *)
Definition slice_from {A} (start : Z) (l : list A) : list A :=
  let n := Z.of_nat (length l) in
  let i := if start <? 0 then Z.max 0 (n + start) else Z.min start n in
  drop (Z.to_nat i) l.

(** ** Data model *)

(** A queue item: the dict built by [enqueue]. *)
Record Job := mkJob {
  payload : list (string * string);
  fail_times : Z;
  attempt : Z;
  idempotency_key : option string
}.

Definition set_attempt (a : Z) (j : Job) : Job :=
  mkJob (payload j) (fail_times j) a (idempotency_key j).

Inductive idem_status := accepted | completed.

(** An entry of the [idempotency] dict ([result] is always [None]). *)
Record IdemRec := mkIdem {
  status : idem_status;
  expires_at : Q
}.

(** An entry of [client_buckets]. *)
Record Bucket := mkBucket {
  b_tokens : Q;
  b_last : Q
}.

(** Control state of one worker task (where [worker_loop] is suspended). *)
Inductive wstate :=
| WIdle                      (* awaiting [queue_immediate.get()] *)
| WSleep (item : Job) (delay : Q)
                             (* inside [delayed_requeue], awaiting [asyncio.sleep(delay)] *)
| WPut (item : Job)          (* inside [delayed_requeue], awaiting the bounded [put] *)
| WCancelled.                (* task cancelled by [shutdown] *)

Record State := mkState {
  queue_immediate : list Job;
  processed : Z;
  failures : Z;
  enqueued : Z;
  in_progress : Z;
  dlq : list Job;
  idempotency : gmap string IdemRec;
  tokens : Q;
  last_refill : Q;
  client_buckets : gmap string Bucket;
  worker_tasks : list wstate
}.

Definition set_queue q (s : State) : State :=
  mkState q (processed s) (failures s) (enqueued s) (in_progress s) (dlq s)
          (idempotency s) (tokens s) (last_refill s) (client_buckets s) (worker_tasks s).
Definition set_processed v (s : State) : State :=
  mkState (queue_immediate s) v (failures s) (enqueued s) (in_progress s) (dlq s)
          (idempotency s) (tokens s) (last_refill s) (client_buckets s) (worker_tasks s).
Definition set_failures v (s : State) : State :=
  mkState (queue_immediate s) (processed s) v (enqueued s) (in_progress s) (dlq s)
          (idempotency s) (tokens s) (last_refill s) (client_buckets s) (worker_tasks s).
Definition set_enqueued v (s : State) : State :=
  mkState (queue_immediate s) (processed s) (failures s) v (in_progress s) (dlq s)
          (idempotency s) (tokens s) (last_refill s) (client_buckets s) (worker_tasks s).
Definition set_in_progress v (s : State) : State :=
  mkState (queue_immediate s) (processed s) (failures s) (enqueued s) v (dlq s)
          (idempotency s) (tokens s) (last_refill s) (client_buckets s) (worker_tasks s).
Definition set_dlq d (s : State) : State :=
  mkState (queue_immediate s) (processed s) (failures s) (enqueued s) (in_progress s) d
          (idempotency s) (tokens s) (last_refill s) (client_buckets s) (worker_tasks s).
Definition set_idempotency m (s : State) : State :=
  mkState (queue_immediate s) (processed s) (failures s) (enqueued s) (in_progress s) (dlq s)
          m (tokens s) (last_refill s) (client_buckets s) (worker_tasks s).
Definition set_bucket tk lr (s : State) : State :=
  mkState (queue_immediate s) (processed s) (failures s) (enqueued s) (in_progress s) (dlq s)
          (idempotency s) tk lr (client_buckets s) (worker_tasks s).
Definition set_client_buckets m (s : State) : State :=
  mkState (queue_immediate s) (processed s) (failures s) (enqueued s) (in_progress s) (dlq s)
          (idempotency s) (tokens s) (last_refill s) m (worker_tasks s).
Definition set_worker_tasks w (s : State) : State :=
  mkState (queue_immediate s) (processed s) (failures s) (enqueued s) (in_progress s) (dlq s)
          (idempotency s) (tokens s) (last_refill s) (client_buckets s) w.

(** The module-level initial values; [t0] is the [time.time()] read at import. *)
Definition init (t0 : Q) : State :=
  mkState [] 0 0 0 0 [] ∅ RATE_CAPACITY t0 ∅ (replicate WORKERS WIdle).

(** ** Rate limiting *)

(** One token-bucket access: refill from the elapsed time, then try to take
    [n] tokens.  Returns the new [(tokens, last)] and the verdict. *)
Definition bucket_consume (capacity rate : Q) (t n : Q) (tk last : Q) : Q * Q * bool :=
  let elapsed := py_max 0 (t - last)%Q in
  let tk1 := py_min capacity (tk + elapsed * rate)%Q in
  if Qgeb tk1 n then ((tk1 - n)%Q, t, true) else (tk1, t, false).

(** [rl_consume(n)] with [t] the value of [now()]. *)
Definition rl_consume (t n : Q) (s : State) : State * bool :=
  let '(tk, lr, ok) :=
    bucket_consume RATE_CAPACITY RATE_REFILL_PER_SEC t n (tokens s) (last_refill s) in
  (set_bucket tk lr s, ok).

(** [rl_consume_client(client_id, n)] with [now_ts] the value of [now()]. *)
Definition rl_consume_client (now_ts : Q) (client_id : string) (n : Q) (s : State)
  : State * bool :=
  let b := match client_buckets s !! client_id with
           | Some b => b
           | None => mkBucket CLIENT_RATE_CAPACITY now_ts
           end in
  let '(tk, lr, ok) :=
    bucket_consume CLIENT_RATE_CAPACITY CLIENT_RATE_REFILL_PER_SEC now_ts n
                   (b_tokens b) (b_last b) in
  (set_client_buckets (<[client_id := mkBucket tk lr]> (client_buckets s)) s, ok).

(** ** The bounded queue ([asyncio.Queue(maxsize=Q_MAX)]) *)

(** [Queue.full()]: [maxsize > 0 and qsize() >= maxsize]. *)
Definition full (q : list Job) : bool :=
  (0 <? Q_MAX) && (Q_MAX <=? Z.of_nat (length q)).

(** [Queue.put_nowait(item)]; [None] stands for [asyncio.QueueFull]. *)
Definition put_nowait (item : Job) (q : list Job) : option (list Job) :=
  if full q then None else Some (q ++ [item]).

(** ** Idempotency store (memory backend) *)

Definition idem_get_status (t : Q) (key : string) (s : State) : option idem_status :=
  if String.eqb key "" then None else
  match idempotency s !! key with
  | None => None
  | Some rec => if Qltb t (expires_at rec) then Some (status rec) else None
  end.

Definition idem_set_accepted (t : Q) (key : string) (s : State) : State :=
  if String.eqb key "" then s else
  let expires := (t + IDEMP_TTL)%Q in
  set_idempotency (<[key := mkIdem accepted expires]> (idempotency s)) s.

Definition idem_set_completed (t : Q) (key : string) (s : State) : State :=
  if String.eqb key "" then s else
  let expires := (t + IDEMP_TTL)%Q in
  match idempotency s !! key with
  | Some _ => set_idempotency (<[key := mkIdem completed expires]> (idempotency s)) s
  | None => s
  end.

(** One pass of [_idem_sweeper] after its [asyncio.sleep(30)], [t = now()]. *)
Definition idem_sweep (t : Q) (s : State) : State :=
  set_idempotency (filter (fun kv => Qle_bool (expires_at kv.2) t = false) (idempotency s)) s.

(** ** Retry, dead-lettering and the worker *)

(** The delay computed in [process_job] for [next_attempt] and jitter draw [u]. *)
Definition backoff_delay (next_attempt : Z) (u : Q) : Q :=
  let base := (BACKOFF_BASE * 2 ^ (next_attempt - 1))%Q in
  py_min (base + u)%Q BACKOFF_CAP.

(** [process_job(item)] up to its first suspension point.  [t] is the clock
    read by [idem_set_completed], [u] the value of [random.uniform(0, JITTER)].
    [Some (item', delay)]: the coroutine is suspended in
    [await delayed_requeue(item', delay)]; [None]: it has returned. *)
Definition process_job (t u : Q) (item : Job) (s : State) : State * option (Job * Q) :=
  let s := set_in_progress (in_progress s + 1) s in
  if attempt item <? fail_times item then
    (* except Exception *)
    let s := set_failures (failures s + 1) s in
    let next_attempt := attempt item + 1 in
    if next_attempt <? MAX_ATTEMPTS then
      let item := set_attempt next_attempt item in
      (s, Some (item, backoff_delay next_attempt u))
    else
      (set_dlq (dlq s ++ [item]) s, None)
  else
    let s := set_processed (processed s + 1) s in
    let key := idempotency_key item in
    if truthy key then
      (idem_set_completed t (default "" key) s, None)
    else (s, None).

(** [delayed_requeue] when its sleep is over: [put_nowait], and on
    [QueueFull] the coroutine suspends in the bounded [put] ([Some item]). *)
Definition delayed_requeue_wake (item : Job) (s : State) : State * option Job :=
  match put_nowait item (queue_immediate s) with
  | Some q => (set_queue q s, None)
  | None => (s, Some item)
  end.

(** The bounded [put] gets room before its timeout (a blocked [put] re-checks
    [full()] when woken, so this needs a queue that is not full). *)
Definition delayed_requeue_put (item : Job) (s : State) : option State :=
  match put_nowait item (queue_immediate s) with
  | Some q => Some (set_queue q s)
  | None => None
  end.

(** The bounded [put] times out ([asyncio.TimeoutError]). *)
Definition delayed_requeue_timeout (item : Job) (s : State) : State :=
  set_dlq (dlq s ++ [item]) s.

(** The [finally] block of [worker_loop] ([task_done] has no observer). *)
Definition worker_finally (s : State) : State :=
  set_in_progress (Z.max 0 (in_progress s - 1)) s.

Definition set_worker (i : nat) (w : wstate) (s : State) : State :=
  set_worker_tasks (<[i := w]> (worker_tasks s)) s.

(** ** Endpoints *)

(** [GET /dlq]: [(count, items)]. *)
Definition dlq_list (limit : Z) (s : State) : Z * list Job :=
  (Z.of_nat (length (dlq s)), slice_from (- limit) (dlq s)).

(** The [while dlq and moved < limit] loop of [dlq_requeue] on
    [(moved, dlq, queue)]. *)
Fixpoint dlq_requeue_loop (limit moved : Z) (d q : list Job) : Z * list Job * list Job :=
  match d with
  | [] => (moved, d, q)
  | item :: rest =>
      if moved <? limit then
        let moved := moved + 1 in
        let item := set_attempt (attempt item) item in
        match put_nowait item q with
        | Some q' => dlq_requeue_loop limit moved rest q'
        | None => (moved, item :: rest, q)
        end
      else (moved, d, q)
  end.

(** [POST /dlq/requeue]: new state and the ["requeued"] field. *)
Definition dlq_requeue (limit : Z) (s : State) : State * Z :=
  let '(moved, d, q) := dlq_requeue_loop limit 0 (dlq s) (queue_immediate s) in
  (set_queue q (set_dlq d s), moved).

Record EnqueueBody := mkBody {
  body_payload : option (list (string * string));
  body_fail_times : Z;
  body_id : option string
}.

(** What [enqueue] reads from the request. *)
Record Request := mkRequest {
  hdr_x_client_id : option string;
  client_host : option string;          (* [None]: [request.client] is [None] *)
  hdr_x_idempotency_key : option string;
  hdr_idempotency_key : option string
}.

(** The [detail] of the 429 [HTTPException]s. *)
Inductive http_error := rate_limited | rate_limited_client | queue_full.

Inductive resp_status := st_enqueued | st_idem (st : idem_status).

Record EnqueueResp := mkResp {
  r_status : resp_status;
  r_idempotent : bool
}.

(** The four [now()] readings of one [enqueue] call, in program order. *)
Record Clock := mkClock {
  t_global : Q;
  t_client : Q;
  t_lookup : Q;
  t_accept : Q
}.

Definition client_id_of (request : Request) : string :=
  if truthy (hdr_x_client_id request) then default "" (hdr_x_client_id request)
  else match client_host request with Some h => h | None => "unknown" end.

Definition idem_key_of (request : Request) : option string :=
  py_or (hdr_x_idempotency_key request) (hdr_idempotency_key request).

(** [POST /enqueue]. *)
Definition enqueue (c : Clock) (body : EnqueueBody) (request : Request) (s : State)
  : State * (http_error + EnqueueResp) :=
  let '(s, ok) := rl_consume (t_global c) 1 s in
  if negb ok then (s, inl rate_limited) else
  let client_id := client_id_of request in
  let '(s, ok) := rl_consume_client (t_client c) client_id 1 s in
  if negb ok then (s, inl rate_limited_client) else
  let idem_key := idem_key_of request in
  let dup := if truthy idem_key
             then idem_get_status (t_lookup c) (default "" idem_key) s
             else None in
  match dup with
  | Some st => (s, inr (mkResp (st_idem st) true))
  | None =>
      if full (queue_immediate s) then (s, inl queue_full) else
      let item := mkJob (default [] (body_payload body)) (body_fail_times body) 0
                        (if truthy idem_key then idem_key else None) in
      match put_nowait item (queue_immediate s) with
      | None => (s, inl queue_full)
      | Some q =>
          let s := set_queue q s in
          let s := if truthy idem_key
                   then idem_set_accepted (t_accept c) (default "" idem_key) s
                   else s in
          let s := set_enqueued (enqueued s + 1) s in
          (s, inr (mkResp st_enqueued (truthy idem_key)))
      end
  end.

(** ** The engine as a transition system *)

Inductive event :=
| EvEnqueue (c : Clock) (body : EnqueueBody) (request : Request)
| EvGet (i : nat) (t u : Q)   (* worker [i] obtains a job and runs [process_job] *)
| EvTimer (i : nat)           (* the [asyncio.sleep] of worker [i] is over *)
| EvPutReady (i : nat)        (* the bounded [put] of worker [i] gets room *)
| EvPutTimeout (i : nat)      (* the bounded [put] of worker [i] times out *)
| EvSweep (t : Q)
| EvDlqList (limit : Z)
| EvDlqRequeue (limit : Z)
| EvCancel (i : nat).         (* [shutdown] cancels worker [i] *)

(** [random.uniform(0, JITTER)] lies in [0, JITTER]. *)
Definition jitter_ok (u : Q) : bool := Qle_bool 0 u && Qle_bool u JITTER.

(** One atomic transition; [None] when the event is not enabled. *)
Definition step (e : event) (s : State) : option State :=
  match e with
  | EvEnqueue c body request => Some (enqueue c body request s).1
  | EvGet i t u =>
      match worker_tasks s !! i, queue_immediate s with
      | Some WIdle, item :: rest =>
          if jitter_ok u then
            match process_job t u item (set_queue rest s) with
            | (s', Some (item', delay)) => Some (set_worker i (WSleep item' delay) s')
            | (s', None) => Some (worker_finally s')
            end
          else None
      | _, _ => None
      end
  | EvTimer i =>
      match worker_tasks s !! i with
      | Some (WSleep item _) =>
          match delayed_requeue_wake item s with
          | (s', Some item') => Some (set_worker i (WPut item') s')
          | (s', None) => Some (set_worker i WIdle (worker_finally s'))
          end
      | _ => None
      end
  | EvPutReady i =>
      match worker_tasks s !! i with
      | Some (WPut item) =>
          match delayed_requeue_put item s with
          | Some s' => Some (set_worker i WIdle (worker_finally s'))
          | None => None
          end
      | _ => None
      end
  | EvPutTimeout i =>
      match worker_tasks s !! i with
      | Some (WPut item) =>
          Some (set_worker i WIdle (worker_finally (delayed_requeue_timeout item s)))
      | _ => None
      end
  | EvSweep t => Some (idem_sweep t s)
  | EvDlqList _ => Some s
  | EvDlqRequeue limit => Some (dlq_requeue limit s).1
  | EvCancel i =>
      match worker_tasks s !! i with
      | Some WIdle => Some (set_worker i WCancelled s)
      | Some (WSleep _ _) | Some (WPut _) =>
          Some (set_worker i WCancelled (worker_finally s))
      | _ => None
      end
  end.

(** Running a schedule of events. *)
Fixpoint run (es : list event) (s : State) : option State :=
  match es with
  | [] => Some s
  | e :: es' => match step e s with Some s' => run es' s' | None => None end
  end.

Definition reachable (s : State) : Prop :=
  exists t0 es, run es (init t0) = Some s.

(** Number of admitted calls in a burst of unit-cost [rl_consume] calls made
    at the clock readings [ts]. *)
Fixpoint rl_burst (ts : list Q) (s : State) : nat :=
  match ts with
  | [] => 0%nat
  | t :: ts' =>
      let '(s', ok) := rl_consume t 1 s in
      ((if ok then 1 else 0) + rl_burst ts' s')%nat
  end.

(** The same for one client's bucket. *)
Fixpoint rl_client_burst (ts : list Q) (client_id : string) (s : State) : nat :=
  match ts with
  | [] => 0%nat
  | t :: ts' =>
      let '(s', ok) := rl_consume_client t client_id 1 s in
      ((if ok then 1 else 0) + rl_client_burst ts' client_id s')%nat
  end.

(** The bucket of [client_id] as [rl_consume_client] sees it: the stored one,
    or the fresh full bucket it creates. *)
Definition client_bucket (now_ts : Q) (client_id : string) (s : State) : Bucket :=
  match client_buckets s !! client_id with
  | Some b => b
  | None => mkBucket CLIENT_RATE_CAPACITY now_ts
  end.

(** Admitted calls of a burst of unit-cost accesses to one bucket. *)
Fixpoint bucket_burst (cap rate : Q) (ts : list Q) (tk last : Q) : nat :=
  match ts with
  | [] => 0%nat
  | t :: ts' =>
      let '(tk', last', ok) := bucket_consume cap rate t 1 tk last in
      ((if ok then 1 else 0) + bucket_burst cap rate ts' tk' last')%nat
  end.

(** ** Sample data for the examples *)

Definition job_ok : Job := mkJob [] 0 0 None.
(** A job that has failed twice and will fail once more. *)
Definition job_exhausted : Job := mkJob [] 3 2 None.
(** A job whose first execution fails. *)
Definition job_flaky : Job := mkJob [] 1 0 None.

(** A state whose queue is at capacity and whose dead-letter list holds one job. *)
Definition st_full_queue : State :=
  set_dlq [job_exhausted] (set_queue (replicate (Z.to_nat Q_MAX) job_ok) (init 0)).

(** A state with two dead-lettered jobs. *)
Definition st_two_dead : State := set_dlq [job_exhausted; job_ok] (init 0).

(** Both rate limiters accept the request of [enqueue]. *)
Definition limits_pass (c : Clock) (request : Request) (s : State) : bool :=
  let g := rl_consume (t_global c) 1 s in
  g.2 && (rl_consume_client (t_client c) (client_id_of request) 1 g.1).2.

(** A response of [enqueue] is the duplicate response. *)
Definition is_duplicate (r : http_error + EnqueueResp) : bool :=
  match r with
  | inr (mkResp (st_idem _) _) => true
  | _ => false
  end.

(** A request from client ["alice"] carrying the idempotency key ["k1"]. *)
Definition req_k1 : Request := mkRequest (Some "alice") None (Some "k1") None.
Definition body_plain : EnqueueBody := mkBody None 0 None.
(** All four clock readings of an [enqueue] call equal to [t]. *)
Definition clock_at (t : Q) : Clock := mkClock t t t t.

(** The state after a first keyed submission at time 0. *)
Definition st_accepted : State := (enqueue (clock_at 0) body_plain req_k1 (init 0)).1.
(** The job that submission put in the queue. *)
Definition job_k1 : Job := mkJob [] 0 0 (Some "k1").
(** The state after that job has been executed successfully at time 2. *)
Definition st_completed : State :=
  (process_job 2 0 job_k1 (set_queue [] st_accepted)).1.

(** [st_accepted] after a sweep at time 650, when the record of ["k1"]
    (expiring at 600) is removed while its job is still waiting. *)
Definition st_swept : State := idem_sweep 650 st_accepted.

(** Mean of the delays scheduled before attempt [next_attempt] over a sample
    [us] of jitter draws. *)
Definition mean_delay (next_attempt : Z) (us : list Q) : Q :=
  (fold_right Qplus 0 (map (backoff_delay next_attempt) us)
   / inject_Z (Z.of_nat (length us)))%Q.

(** A state in which worker 0 is suspended in the bounded [put] of
    [delayed_requeue] while the queue is at capacity. *)
Definition st_blocked_put : State :=
  set_worker 0 (WPut job_flaky)
    (set_in_progress 1 (set_queue (replicate (Z.to_nat Q_MAX) job_ok) (init 0))).

(** ** Invariant of the engine *)

(** A worker is inside [process_job] (suspended in [delayed_requeue]). *)
Definition busy (w : wstate) : bool :=
  match w with
  | WSleep _ _ | WPut _ => true
  | WIdle | WCancelled => false
  end.

Fixpoint busy_count (ws : list wstate) : Z :=
  match ws with
  | [] => 0
  | w :: ws' => (if busy w then 1 else 0) + busy_count ws'
  end.

Definition attempt_ok (j : Job) : Prop := 0 <= attempt j < MAX_ATTEMPTS.

Definition wstate_ok (w : wstate) : Prop :=
  match w with
  | WSleep j _ | WPut j => attempt_ok j
  | WIdle | WCancelled => True
  end.

Record Inv (s : State) : Prop := mkInv {
  inv_workers : length (worker_tasks s) = WORKERS;
  inv_progress : in_progress s = busy_count (worker_tasks s);
  inv_queue : Forall attempt_ok (queue_immediate s);
  inv_dlq : Forall attempt_ok (dlq s);
  inv_tasks : Forall wstate_ok (worker_tasks s)
}.

(** ** Sample schedules *)

(** A submission, without idempotency key, of a job that fails [n] times. *)
Definition submit_failing (n : Z) : event :=
  EvEnqueue (clock_at 0) (mkBody None n None) (mkRequest (Some "alice") None None None).

(** One job that always fails, run by worker 0 until it is dead-lettered:
    three executions and two backoff sleeps. *)
Definition sched_exhaust : list event :=
  [submit_failing 3; EvGet 0 0 0; EvTimer 0; EvGet 0 0 0; EvTimer 0; EvGet 0 0 0].

(** Four jobs that fail once and a fifth, healthy one; each of the four
    workers obtains one of the failing jobs. *)
Definition sched_all_backing_off : list event :=
  [submit_failing 1; submit_failing 1; submit_failing 1; submit_failing 1;
   submit_failing 0;
   EvGet 0 0 0; EvGet 1 0 0; EvGet 2 0 0; EvGet 3 0 0].

(** Whether worker [i] can obtain a job in state [s], whatever the clock
    reading and the (jitter-free) draw. *)
Definition can_get (i : nat) (s : State) : bool :=
  match step (EvGet i 0 0) s with Some _ => true | None => false end.

(** The state reached by [sched_all_backing_off]. *)
Definition st_all_backing_off : State :=
  default (init 0) (run sched_all_backing_off (init 0)).

(** [sched_exhaust] without its last execution, and the state it reaches:
    the job has failed twice and waits in the queue with [attempt = 2]. *)
Definition sched_last_attempt : list event :=
  [submit_failing 3; EvGet 0 0 0; EvTimer 0; EvGet 0 0 0; EvTimer 0].
Definition st_last_attempt : State :=
  default (init 0) (run sched_last_attempt (init 0)).
Definition st_exhausted : State :=
  default (init 0) (run sched_exhaust (init 0)).

(** ** Further notions used by the verification *)

(** The response of an accepted submission ([status = "enqueued"]). *)
Definition is_enqueued (r : http_error + EnqueueResp) : bool :=
  match r with
  | inr (mkResp st_enqueued _) => true
  | _ => false
  end.

(** The item [enqueue] builds for a request. *)
Definition item_of (body : EnqueueBody) (request : Request) : Job :=
  mkJob (default [] (body_payload body)) (body_fail_times body) 0
        (if truthy (idem_key_of request) then idem_key_of request else None).

(** Jobs the engine currently accounts for: completed, queued, dead-lettered
    or held by a worker. *)
Definition accounted (s : State) : Z :=
  processed s + Z.of_nat (length (queue_immediate s)) +
  Z.of_nat (length (dlq s)) + in_progress s.

Definition is_cancel (e : event) : bool :=
  match e with EvCancel _ => true | _ => false end.

(** Levels of the rate limiters are within their buckets. *)
Definition bucket_ok (b : Bucket) : Prop :=
  (0 <= b_tokens b)%Q /\ (b_tokens b <= CLIENT_RATE_CAPACITY)%Q.

Definition tokens_ok (s : State) : Prop :=
  (0 <= tokens s)%Q /\ (tokens s <= RATE_CAPACITY)%Q /\
  map_Forall (fun _ b => bucket_ok b) (client_buckets s).

(** [n] rounds of worker [i] executing the job at the head of the queue and
    then finishing its backoff sleep. *)
Fixpoint retry_rounds (n i : nat) (t u : Q) : list event :=
  match n with
  | O => []
  | S n' => EvGet i t u :: EvTimer i :: retry_rounds n' i t u
  end.

(** [n] failed executions with their sleeps, then one more execution. *)
Definition until_done (n i : nat) (t u : Q) : list event :=
  retry_rounds n i t u ++ [EvGet i t u].

(** The state after one unkeyed submission of a job that fails [n] times. *)
Definition st_submitted (n : Z) : State :=
  (enqueue (clock_at 0) (mkBody None n None)
           (mkRequest (Some "alice") None None None) (init 0)).1.

(** [GET /stats]. *)
Record Stats := mkStats {
  queue_depth : Z;
  queue_max : Z;
  stats_processed : Z;
  stats_failures : Z;
  stats_enqueued : Z;
  stats_in_progress : Z;
  workers : Z;
  stats_dlq : Z;
  rate_tokens : Q;
  stats_client_buckets : nat
}.

Definition stats (s : State) : Stats :=
  mkStats (Z.of_nat (length (queue_immediate s))) Q_MAX (processed s) (failures s)
          (enqueued s) (in_progress s) (Z.of_nat WORKERS) (Z.of_nat (length (dlq s)))
          (tokens s) (size (client_buckets s)).

(** [t.cancel()] for worker [i]: a task that is already done is not
    affected. *)
Definition cancel_worker (i : nat) (s : State) : State :=
  match step (EvCancel i) s with
  | Some s' => s'
  | None => s
  end.

(** The loop of [shutdown] over the first [n] worker tasks. *)
Fixpoint cancel_upto (n : nat) (s : State) : State :=
  match n with
  | O => s
  | S n' => cancel_worker n' (cancel_upto n' s)
  end.

(** [shutdown]: every worker task is cancelled (the sweeper task holds no
    state of the model). *)
Definition shutdown (s : State) : State :=
  cancel_upto (length (worker_tasks s)) s.

(** * Verification *)

(** ** Python [min]/[max] against the order of [Q] *)

Lemma Qltb_true a b : Qltb a b = true <-> (a < b)%Q.
Proof.
  unfold Qltb. rewrite negb_true_iff. split.
  - intros H. apply Qnot_le_lt. intros Hle. apply Qle_bool_iff in Hle. congruence.
  - intros H. destruct (Qle_bool b a) eqn:E; [|reflexivity].
    apply Qle_bool_iff in E. lra.
Qed.

Lemma Qltb_false a b : Qltb a b = false <-> (b <= a)%Q.
Proof.
  unfold Qltb. rewrite negb_false_iff. apply Qle_bool_iff.
Qed.

Lemma Qgeb_true a b : Qgeb a b = true <-> (b <= a)%Q.
Proof. apply Qle_bool_iff. Qed.

Lemma py_min_spec a b : (py_min a b == Qmin a b)%Q.
Proof.
  unfold py_min. destruct (Qltb b a) eqn:E.
  - apply Qltb_true in E. rewrite Q.min_r; [reflexivity | lra].
  - apply Qltb_false in E. rewrite Q.min_l; [reflexivity | lra].
Qed.

Lemma py_max_spec a b : (py_max a b == Qmax a b)%Q.
Proof.
  unfold py_max. destruct (Qltb a b) eqn:E.
  - apply Qltb_true in E. rewrite Q.max_r; [reflexivity | lra].
  - apply Qltb_false in E. rewrite Q.max_l; [reflexivity | lra].
Qed.

Lemma py_min_le_l a b : (py_min a b <= a)%Q.
Proof. rewrite py_min_spec. apply Q.le_min_l. Qed.

Lemma py_min_le_r a b : (py_min a b <= b)%Q.
Proof. rewrite py_min_spec. apply Q.le_min_r. Qed.

Lemma py_max_zero_elapsed t last : (t <= last)%Q -> (py_max 0 (t - last) == 0)%Q.
Proof.
  intros H. unfold py_max. destruct (Qltb 0 (t - last)) eqn:E; [|reflexivity].
  apply Qltb_true in E. lra.
Qed.

(** ** Token bucket *)

Lemma bucket_consume_spec cap rate t n tk last :
  let r := Qmin cap (tk + Qmax 0 (t - last) * rate) in
  let '(tk', last', ok) := bucket_consume cap rate t n tk last in
  last' = t /\ (ok = true <-> (n <= r)%Q) /\
  (if ok then tk' == r - n else tk' == r)%Q.
Proof.
  intros r. unfold bucket_consume.
  assert (Hr : (py_min cap (tk + py_max 0 (t - last) * rate) == r)%Q).
  { unfold r. rewrite py_min_spec, py_max_spec. reflexivity. }
  destruct (Qgeb _ n) eqn:E.
  - apply Qgeb_true in E. rewrite Hr in E.
    split; [reflexivity|]. split; [tauto|]. rewrite Hr. reflexivity.
  - split; [reflexivity|]. split; [|exact Hr].
    split; [discriminate|]. intros Hn. rewrite <- Hr in Hn.
    apply Qgeb_true in Hn. congruence.
Qed.

Lemma bucket_consume_le_cap cap rate t n tk last :
  (0 <= n)%Q -> ((bucket_consume cap rate t n tk last).1.1 <= cap)%Q.
Proof.
  intros Hn. unfold bucket_consume.
  pose proof (py_min_le_l cap (tk + py_max 0 (t - last) * rate)) as Hle.
  destruct (Qgeb _ n); simpl; lra.
Qed.

(** With no time elapsed, a bucket holding at most [k] tokens admits at most
    [k] unit-cost calls. *)
Lemma bucket_consume_zero_elapsed cap rate t tk last :
  (t <= last)%Q ->
  let '(tk', _, ok) := bucket_consume cap rate t 1 tk last in
  (tk' <= tk)%Q /\ (ok = true -> 1 <= tk /\ tk' <= tk - 1)%Q.
Proof.
  intros Ht. unfold bucket_consume.
  pose proof (py_max_zero_elapsed _ _ Ht) as He.
  assert (Hle : (py_min cap (tk + py_max 0 (t - last) * rate) <= tk)%Q).
  { eapply Qle_trans; [apply py_min_le_r|]. rewrite He. lra. }
  destruct (Qgeb _ 1) eqn:E.
  - apply Qgeb_true in E. split; [lra|]. intros _. lra.
  - split; [lra|discriminate].
Qed.

Lemma bucket_consume_last cap rate t n tk last :
  (bucket_consume cap rate t n tk last).1.2 = t.
Proof. unfold bucket_consume. destruct (Qgeb _ n); reflexivity. Qed.

Lemma Q_of_succ (k : nat) : (inject_Z (Z.of_nat (S k)) == inject_Z (Z.of_nat k) + 1)%Q.
Proof.
  rewrite Nat2Z.inj_succ. unfold Z.succ. rewrite inject_Z_plus. reflexivity.
Qed.

Section Burst.
Variables cap rate : Q.

Lemma bucket_burst_zero_elapsed t m : forall (k : nat) tk last,
  (t <= last)%Q -> (tk <= inject_Z (Z.of_nat k))%Q ->
  (bucket_burst cap rate (replicate m t) tk last <= k)%nat.
Proof.
  induction m as [|m IH]; intros k tk last Ht Hk; simpl; [lia|].
  pose proof (bucket_consume_zero_elapsed cap rate t tk last Ht) as Hz.
  pose proof (bucket_consume_last cap rate t 1 tk last) as Hl.
  destruct (bucket_consume cap rate t 1 tk last) as [[tk' last'] ok].
  simpl in Hl. subst last'. destruct Hz as [Hle Hok].
  destruct ok.
  - destruct Hok as [H1 H2]; [reflexivity|].
    destruct k as [|k].
    { change (inject_Z (Z.of_nat 0)) with 0%Q in Hk. lra. }
    rewrite Q_of_succ in Hk.
    assert (IH' : (bucket_burst cap rate (replicate m t) tk' t <= k)%nat)
      by (apply IH; lra).
    lia.
  - assert (IH' : (bucket_burst cap rate (replicate m t) tk' t <= k)%nat)
      by (apply IH; lra).
    lia.
Qed.

(** Whatever the bucket held before, a burst at one instant admits at most
    [k] calls when [cap <= k]: the first call clamps the level to [cap]. *)
Lemma bucket_burst_bound t m (k : nat) tk last :
  (cap <= inject_Z (Z.of_nat k))%Q ->
  (bucket_burst cap rate (replicate m t) tk last <= k)%nat.
Proof.
  intros Hcap. destruct m as [|m]; simpl; [lia|].
  pose proof (bucket_consume_last cap rate t 1 tk last) as Hl.
  assert (Hc : ((bucket_consume cap rate t 1 tk last).1.1 <= cap)%Q)
    by (apply bucket_consume_le_cap; lra).
  assert (Hok : (bucket_consume cap rate t 1 tk last).2 = true ->
                ((bucket_consume cap rate t 1 tk last).1.1 <= cap - 1 /\ 1 <= cap)%Q).
  { unfold bucket_consume.
    pose proof (py_min_le_l cap (tk + py_max 0 (t - last) * rate)).
    destruct (Qgeb _ 1) eqn:E; simpl; [intros _ | discriminate].
    apply Qgeb_true in E. lra. }
  destruct (bucket_consume cap rate t 1 tk last) as [[tk' last'] ok].
  simpl in *. subst last'. destruct ok.
  - destruct (Hok eq_refl) as [Hok1 Hok2]. destruct k as [|k].
    { (* an admitted call needs one token, but [cap <= 0] *)
      change (inject_Z (Z.of_nat 0)) with 0%Q in Hcap. lra. }
    rewrite Q_of_succ in Hcap.
    assert (Hb : (bucket_burst cap rate (replicate m t) tk' t <= k)%nat)
      by (apply bucket_burst_zero_elapsed; lra).
    lia.
  - assert (Hb : (bucket_burst cap rate (replicate m t) tk' t <= k)%nat)
      by (apply bucket_burst_zero_elapsed; lra).
    lia.
Qed.
End Burst.

Lemma rl_burst_bucket ts : forall s,
  rl_burst ts s = bucket_burst RATE_CAPACITY RATE_REFILL_PER_SEC ts (tokens s) (last_refill s).
Proof.
  induction ts as [|t ts IH]; intros s; simpl; [reflexivity|].
  unfold rl_consume.
  destruct (bucket_consume _ _ t 1 _ _) as [[tk' lr'] ok].
  rewrite IH. reflexivity.
Qed.

Lemma rl_client_burst_bucket ts client_id : forall s,
  rl_client_burst ts client_id s =
  match ts with
  | [] => 0%nat
  | t :: _ =>
      bucket_burst CLIENT_RATE_CAPACITY CLIENT_RATE_REFILL_PER_SEC ts
        (b_tokens (client_bucket t client_id s)) (b_last (client_bucket t client_id s))
  end.
Proof.
  induction ts as [|t ts IH]; intros s; [reflexivity|].
  cbn [rl_client_burst bucket_burst].
  unfold rl_consume_client. fold (client_bucket t client_id s).
  destruct (bucket_consume _ _ t 1 _ _) as [[tk' lr'] ok].
  rewrite IH. destruct ts as [|t' ts]; [reflexivity|].
  unfold client_bucket at 1 2. cbn [client_buckets set_client_buckets].
  rewrite lookup_insert_eq. reflexivity.
Qed.

(** C7. Token bucket ([rl_consume], [rl_consume_client]).  Each call first
    refills the addressed bucket to [min(capacity, tokens + elapsed * rate)]
    with [elapsed = max(0, now - last)] and records [now] as the last refill;
    it succeeds, subtracting the cost, exactly when the refilled level is at
    least the cost, and otherwise leaves the refilled level.  Hence for a
    non-negative cost the level never exceeds the capacity, and a burst of
    unit-cost calls at one instant admits at most [capacity] of them (50 for
    the global bucket, 10 per client). *)
Theorem C7_token_bucket :
  (forall t n s,
      let r := Qmin RATE_CAPACITY
                 (tokens s + Qmax 0 (t - last_refill s) * RATE_REFILL_PER_SEC) in
      let s' := (rl_consume t n s).1 in
      let ok := (rl_consume t n s).2 in
      last_refill s' = t /\ (ok = true <-> (n <= r)%Q) /\
      (if ok then tokens s' == r - n else tokens s' == r)%Q /\
      ((0 <= n)%Q -> (tokens s' <= RATE_CAPACITY)%Q)) /\
  (forall t client_id n s,
      let b := client_bucket t client_id s in
      let r := Qmin CLIENT_RATE_CAPACITY
                 (b_tokens b + Qmax 0 (t - b_last b) * CLIENT_RATE_REFILL_PER_SEC) in
      let s' := (rl_consume_client t client_id n s).1 in
      let ok := (rl_consume_client t client_id n s).2 in
      exists b', client_buckets s' !! client_id = Some b' /\
        b_last b' = t /\ (ok = true <-> (n <= r)%Q) /\
        (if ok then b_tokens b' == r - n else b_tokens b' == r)%Q /\
        ((0 <= n)%Q -> (b_tokens b' <= CLIENT_RATE_CAPACITY)%Q)) /\
  (forall t m s, (rl_burst (replicate m t) s <= 50)%nat) /\
  (forall t m client_id s, (rl_client_burst (replicate m t) client_id s <= 10)%nat).
Proof.
  split; [|split; [|split]].
  - intros t n s r s' ok. subst s' ok. unfold rl_consume.
    pose proof (bucket_consume_spec RATE_CAPACITY RATE_REFILL_PER_SEC t n
                  (tokens s) (last_refill s)) as Hs.
    pose proof (bucket_consume_le_cap RATE_CAPACITY RATE_REFILL_PER_SEC t n
                  (tokens s) (last_refill s)) as Hc.
    destruct (bucket_consume _ _ t n _ _) as [[tk' lr'] ok]. simpl in *.
    destruct Hs as (Hl & Hok & Htk). auto.
  - intros t client_id n s b r s' ok. subst s' ok. unfold rl_consume_client.
    fold (client_bucket t client_id s). fold b.
    pose proof (bucket_consume_spec CLIENT_RATE_CAPACITY CLIENT_RATE_REFILL_PER_SEC
                  t n (b_tokens b) (b_last b)) as Hs.
    pose proof (bucket_consume_le_cap CLIENT_RATE_CAPACITY CLIENT_RATE_REFILL_PER_SEC
                  t n (b_tokens b) (b_last b)) as Hc.
    destruct (bucket_consume _ _ t n _ _) as [[tk' lr'] ok]. simpl in *.
    destruct Hs as (Hl & Hok & Htk).
    eexists. rewrite lookup_insert_eq. split; [reflexivity|]. simpl. auto.
  - intros t m s. rewrite rl_burst_bucket. apply bucket_burst_bound.
    apply Qle_bool_iff. reflexivity.
  - intros t m client_id s. rewrite rl_client_burst_bucket.
    destruct m as [|m]; [simpl; lia|].
    change (replicate (S m) t) with (t :: replicate m t) at 1. cbv beta iota.
    apply (bucket_burst_bound _ _ t (S m)).
    apply Qle_bool_iff. reflexivity.
Qed.

Lemma C7_token_bucket_witness :
  (tokens (rl_consume 7 1 (init 7)).1 <= RATE_CAPACITY)%Q /\
  (rl_burst (replicate 60 7%Q) (init 7) <= 50)%nat.
Proof.
  destruct C7_token_bucket as (Hg & _ & Hb & _). split.
  - apply (Hg 7%Q 1%Q (init 7)). lra.
  - apply Hb.
Defined.

(** The bound is attained: from the initial state exactly 50 of 60
    simultaneous calls pass the global bucket, and 10 a client's. *)
Example rl_burst_tight :
  rl_burst (replicate 60 7%Q) (init 7) = 50%nat /\
  rl_client_burst (replicate 60 7%Q) "c" (init 7) = 10%nat.
Proof. split; vm_compute; reflexivity. Qed.

(** ** Dead-letter endpoints *)

Lemma set_attempt_same j : set_attempt (attempt j) j = j.
Proof. destruct j; reflexivity. Qed.

Lemma slice_from_suffix {A} (start : Z) (l : list A) :
  exists pre, l = pre ++ slice_from start l.
Proof.
  unfold slice_from. eexists. symmetry. apply take_drop.
Qed.

(** For a positive [limit], [dlq[-limit:]] is the last [min(limit, len)]
    entries of the dead-letter list. *)
Lemma dlq_list_positive limit s :
  0 < limit ->
  let '(count, items) := dlq_list limit s in
  count = Z.of_nat (length (dlq s)) /\
  Z.of_nat (length items) = Z.min limit (Z.of_nat (length (dlq s))) /\
  exists older, dlq s = older ++ items.
Proof.
  intros Hl. unfold dlq_list. split; [reflexivity|]. split.
  - unfold slice_from. rewrite length_drop.
    replace (- limit <? 0) with true by (symmetry; apply Z.ltb_lt; lia). lia.
  - apply slice_from_suffix.
Qed.

(** What the loop of [dlq_requeue] does: it moves a prefix [taken] of the
    dead-letter list to the back of the queue, items unchanged; the counter
    grows by [length taken] when the loop ends by exhaustion or by the limit,
    and by one more when it ends on a refused item, which stays in front. *)
Lemma dlq_requeue_loop_spec limit : forall d moved q,
  exists taken rest,
    d = taken ++ rest /\
    let n := Z.of_nat (length taken) in
    (dlq_requeue_loop limit moved d q = (moved + n, rest, q ++ taken) /\
     (rest = [] \/ limit <= moved + n)
     \/
     dlq_requeue_loop limit moved d q = (moved + n + 1, rest, q ++ taken) /\
     rest <> [] /\ full (q ++ taken) = true /\ moved + n < limit).
Proof.
  induction d as [|item d IH]; intros moved q.
  - exists [], []. split; [reflexivity|]. left. simpl.
    rewrite Z.add_0_r, app_nil_r. auto.
  - simpl. destruct (moved <? limit) eqn:Hm.
    + rewrite set_attempt_same. unfold put_nowait.
      destruct (full q) eqn:Hf.
      * exists [], (item :: d). split; [reflexivity|]. right. simpl.
        rewrite Z.add_0_r, app_nil_r. apply Z.ltb_lt in Hm.
        repeat split; [discriminate | assumption | assumption].
      * destruct (IH (moved + 1) (q ++ [item])) as (taken & rest & Hd & Hcase).
        exists (item :: taken), rest. split; [simpl; congruence|].
        cbn zeta in *. rewrite <- !app_assoc in Hcase. simpl in Hcase.
        replace (moved + Z.of_nat (length (item :: taken)))
          with (moved + 1 + Z.of_nat (length taken)) by (simpl length; lia).
        exact Hcase.
    + exists [], (item :: d). split; [reflexivity|]. left. simpl.
      rewrite Z.add_0_r, app_nil_r. apply Z.ltb_ge in Hm. auto.
Qed.

(** C6. [dlq_requeue] counts an item before trying to enqueue it and does not
    take the count back when the queue refuses the item: with the queue at
    capacity and one dead-lettered job, [dlq_requeue(10)] moves nothing (queue
    and dead-letter list are unchanged) and still reports [requeued = 1]. *)
Theorem C6_dlq_requeue_counts_refused_item :
  full (queue_immediate st_full_queue) = true /\
  dlq_requeue 10 st_full_queue = (st_full_queue, 1).
Proof. split; vm_compute; reflexivity. Qed.

(** C8. [dlq_list] slices with [dlq[-limit:]], and [-0] is [0]: with
    [limit = 0] the whole dead-letter list is returned, two items where at
    most zero were asked for. *)
Theorem C8_dlq_list_zero_limit_returns_all :
  dlq_list 0 st_two_dead = (2, [job_exhausted; job_ok]).
Proof. reflexivity. Qed.

(** ** Admission path *)

Lemma rl_consume_frame t n s :
  let s' := (rl_consume t n s).1 in
  queue_immediate s' = queue_immediate s /\ idempotency s' = idempotency s /\
  enqueued s' = enqueued s /\ client_buckets s' = client_buckets s /\
  dlq s' = dlq s /\ processed s' = processed s /\ failures s' = failures s /\
  in_progress s' = in_progress s /\ worker_tasks s' = worker_tasks s.
Proof.
  unfold rl_consume. destruct (bucket_consume _ _ t n _ _) as [[tk lr] ok].
  simpl. repeat split.
Qed.

Lemma rl_consume_client_frame t cid n s :
  let s' := (rl_consume_client t cid n s).1 in
  queue_immediate s' = queue_immediate s /\ idempotency s' = idempotency s /\
  enqueued s' = enqueued s /\ tokens s' = tokens s /\ last_refill s' = last_refill s /\
  dlq s' = dlq s /\ processed s' = processed s /\ failures s' = failures s /\
  in_progress s' = in_progress s /\ worker_tasks s' = worker_tasks s.
Proof.
  unfold rl_consume_client. destruct (bucket_consume _ _ t n _ _) as [[tk lr] ok].
  simpl. repeat split.
Qed.

Lemma idem_get_status_ext t key s1 s2 :
  idempotency s1 = idempotency s2 -> idem_get_status t key s1 = idem_get_status t key s2.
Proof. intros H. unfold idem_get_status. rewrite H. reflexivity. Qed.

Lemma truthy_default k : truthy k = true -> String.eqb (default "" k) "" = false.
Proof.
  destruct k as [k|]; simpl; [|discriminate].
  intros H. apply negb_true_iff in H. exact H.
Qed.

(** The complete case analysis of [enqueue]. *)
Lemma enqueue_spec c body request s :
  let g := rl_consume (t_global c) 1 s in
  let cl := rl_consume_client (t_client c) (client_id_of request) 1 g.1 in
  let key := idem_key_of request in
  let dup := if truthy key
             then idem_get_status (t_lookup c) (default "" key) s else None in
  let item := mkJob (default [] (body_payload body)) (body_fail_times body) 0
                    (if truthy key then key else None) in
  let res := enqueue c body request s in
  let untouched (s' : State) :=
    queue_immediate s' = queue_immediate s /\ idempotency s' = idempotency s /\
    enqueued s' = enqueued s in
  if negb g.2 then
    res = (g.1, inl rate_limited) /\ untouched res.1 /\
    client_buckets res.1 = client_buckets s
  else if negb cl.2 then
    res = (cl.1, inl rate_limited_client) /\ untouched res.1
  else match dup with
  | Some st => res = (cl.1, inr (mkResp (st_idem st) true)) /\ untouched res.1
  | None =>
      if full (queue_immediate s) then
        res = (cl.1, inl queue_full) /\ untouched res.1
      else
        res.2 = inr (mkResp st_enqueued (truthy key)) /\
        queue_immediate res.1 = queue_immediate s ++ [item] /\
        idempotency res.1 =
          (if truthy key
           then <[default "" key := mkIdem accepted (t_accept c + IDEMP_TTL)]> (idempotency s)
           else idempotency s) /\
        enqueued res.1 = enqueued s + 1 /\
        tokens res.1 = tokens cl.1 /\ last_refill res.1 = last_refill cl.1 /\
        client_buckets res.1 = client_buckets cl.1
  end.
Proof.
  intros g cl key dup item res untouched.
  pose proof (rl_consume_frame (t_global c) 1 s) as Fg.
  pose proof (rl_consume_client_frame (t_client c) (client_id_of request) 1 g.1) as Fc.
  fold g in Fg. fold cl in Fc. cbn zeta in Fg, Fc.
  destruct Fg as (Gq & Gi & Ge & Gb & _). destruct Fc as (Cq & Ci & Ce & _).
  assert (Hdup : (if truthy key
                  then idem_get_status (t_lookup c) (default "" key) cl.1
                  else None) = dup).
  { unfold dup. destruct (truthy key); [|reflexivity].
    apply idem_get_status_ext. congruence. }
  subst res. unfold enqueue. fold g.
  destruct g as [sg okg] eqn:Eg. simpl in *.
  destruct okg; simpl.
  2:{ unfold untouched. simpl. auto. }
  fold cl. destruct cl as [sc okc] eqn:Ec. simpl in *.
  destruct okc; simpl.
  2:{ unfold untouched. simpl. repeat split; congruence. }
  fold key. rewrite Hdup. destruct dup as [st|].
  { unfold untouched. simpl. repeat split; congruence. }
  rewrite Cq, Gq. destruct (full (queue_immediate s)) eqn:Hf.
  { unfold untouched. simpl. repeat split; congruence. }
  unfold put_nowait. rewrite ?Cq, ?Gq, ?Hf. fold item.
  destruct (truthy key) eqn:Hk; simpl.
  - unfold idem_set_accepted. rewrite (truthy_default _ Hk). simpl.
    repeat split; congruence.
  - repeat split; congruence.
Qed.

(** C3. [enqueue] performs its checks in a fixed short-circuiting order:
    global bucket, per-client bucket, idempotency lookup (a live record gives
    the duplicate response without enqueueing), queue capacity, then
    [idem_set_accepted] and the [enqueued] counter.  A rejection at any step
    leaves the queue, the idempotency table and [enqueued] as they were (a
    rejection by the global bucket also leaves the client buckets). *)
Theorem C3_enqueue_check_order c body request s :
  let g := rl_consume (t_global c) 1 s in
  let cl := rl_consume_client (t_client c) (client_id_of request) 1 g.1 in
  let key := idem_key_of request in
  let dup := if truthy key
             then idem_get_status (t_lookup c) (default "" key) s else None in
  let item := mkJob (default [] (body_payload body)) (body_fail_times body) 0
                    (if truthy key then key else None) in
  let res := enqueue c body request s in
  let untouched (s' : State) :=
    queue_immediate s' = queue_immediate s /\ idempotency s' = idempotency s /\
    enqueued s' = enqueued s in
  if negb g.2 then
    res = (g.1, inl rate_limited) /\ untouched res.1 /\
    client_buckets res.1 = client_buckets s
  else if negb cl.2 then
    res = (cl.1, inl rate_limited_client) /\ untouched res.1
  else match dup with
  | Some st => res = (cl.1, inr (mkResp (st_idem st) true)) /\ untouched res.1
  | None =>
      if full (queue_immediate s) then
        res = (cl.1, inl queue_full) /\ untouched res.1
      else
        res.2 = inr (mkResp st_enqueued (truthy key)) /\
        queue_immediate res.1 = queue_immediate s ++ [item] /\
        idempotency res.1 =
          (if truthy key
           then <[default "" key := mkIdem accepted (t_accept c + IDEMP_TTL)]> (idempotency s)
           else idempotency s) /\
        enqueued res.1 = enqueued s + 1 /\
        tokens res.1 = tokens cl.1 /\ last_refill res.1 = last_refill cl.1 /\
        client_buckets res.1 = client_buckets cl.1
  end.
Proof. exact (enqueue_spec c body request s). Qed.

(** ** Idempotency *)

Lemma truthy_Some k : k <> "" -> truthy (Some k) = true.
Proof.
  intros H. simpl. apply negb_true_iff. apply String.eqb_neq. exact H.
Qed.

(** [enqueue] once both rate limiters have accepted. *)
Lemma enqueue_after_limits c body request s k :
  limits_pass c request s = true ->
  idem_key_of request = Some k -> k <> "" ->
  let res := enqueue c body request s in
  match idem_get_status (t_lookup c) k s with
  | Some st =>
      res.2 = inr (mkResp (st_idem st) true) /\
      queue_immediate res.1 = queue_immediate s /\
      idempotency res.1 = idempotency s /\ enqueued res.1 = enqueued s
  | None =>
      if full (queue_immediate s) then
        res.2 = inl queue_full /\
        queue_immediate res.1 = queue_immediate s /\
        idempotency res.1 = idempotency s /\ enqueued res.1 = enqueued s
      else
        res.2 = inr (mkResp st_enqueued true) /\
        queue_immediate res.1 =
          queue_immediate s ++
            [mkJob (default [] (body_payload body)) (body_fail_times body) 0 (Some k)] /\
        idempotency res.1 =
          <[k := mkIdem accepted (t_accept c + IDEMP_TTL)]> (idempotency s) /\
        enqueued res.1 = enqueued s + 1
  end.
Proof.
  intros Hl Hk Hne res. subst res.
  pose proof (enqueue_spec c body request s) as H. cbv zeta in H.
  unfold limits_pass in Hl. apply andb_true_iff in Hl. destruct Hl as [Hg Hc].
  rewrite Hg, Hc, Hk in H. rewrite (truthy_Some k Hne) in H. simpl in H.
  destruct (idem_get_status (t_lookup c) k s) as [st|].
  - destruct H as (-> & Hq & Hi & He). simpl. auto.
  - destruct (full (queue_immediate s)).
    + destruct H as (-> & Hq & Hi & He). simpl. auto.
    + destruct H as (Hr & Hq & Hi & He & _). auto.
Qed.

Lemma idem_get_status_live t k s rec :
  k <> "" -> idempotency s !! k = Some rec -> (t < expires_at rec)%Q ->
  idem_get_status t k s = Some (status rec).
Proof.
  intros Hne Hrec Ht. unfold idem_get_status.
  apply String.eqb_neq in Hne. rewrite Hne, Hrec.
  apply Qltb_true in Ht. rewrite Ht. reflexivity.
Qed.

Lemma idem_get_status_expired t k s rec :
  idempotency s !! k = Some rec -> (expires_at rec <= t)%Q ->
  idem_get_status t k s = None.
Proof.
  intros Hrec Ht. unfold idem_get_status.
  destruct (String.eqb k ""); [reflexivity|]. rewrite Hrec.
  apply Qltb_false in Ht. rewrite Ht. reflexivity.
Qed.

Lemma idem_get_status_absent t k s :
  idempotency s !! k = None -> idem_get_status t k s = None.
Proof.
  intros Hrec. unfold idem_get_status.
  destruct (String.eqb k ""); [reflexivity|]. rewrite Hrec. reflexivity.
Qed.

Lemma idem_set_accepted_lookup t k s :
  k <> "" ->
  idempotency (idem_set_accepted t k s) !! k = Some (mkIdem accepted (t + IDEMP_TTL)).
Proof.
  intros Hne. unfold idem_set_accepted. apply String.eqb_neq in Hne. rewrite Hne.
  simpl. apply lookup_insert_eq.
Qed.

Lemma idem_set_completed_lookup t k s rec :
  k <> "" -> idempotency s !! k = Some rec ->
  idempotency (idem_set_completed t k s) !! k = Some (mkIdem completed (t + IDEMP_TTL)).
Proof.
  intros Hne Hrec. unfold idem_set_completed. apply String.eqb_neq in Hne.
  rewrite Hne, Hrec. simpl. apply lookup_insert_eq.
Qed.

Lemma idem_set_completed_absent t k s :
  idempotency s !! k = None -> idem_set_completed t k s = s.
Proof.
  intros Hrec. unfold idem_set_completed.
  destruct (String.eqb k ""); [reflexivity|]. rewrite Hrec. reflexivity.
Qed.

(** A successful execution of a keyed job runs [idem_set_completed]. *)
Lemma process_job_success t u item s k :
  fail_times item <= attempt item -> idempotency_key item = Some k -> k <> "" ->
  process_job t u item s =
  (idem_set_completed t k
     (set_processed (processed s + 1) (set_in_progress (in_progress s + 1) s)), None).
Proof.
  intros Hok Hk Hne. unfold process_job.
  replace (attempt item <? fail_times item) with false
    by (symmetry; apply Z.ltb_ge; lia).
  rewrite Hk, (truthy_Some k Hne). reflexivity.
Qed.

Lemma idem_sweep_lookup t s k :
  idempotency (idem_sweep t s) !! k =
  match idempotency s !! k with
  | Some rec => if Qle_bool (expires_at rec) t then None else Some rec
  | None => None
  end.
Proof.
  unfold idem_sweep. simpl. rewrite map_lookup_filter.
  destruct (idempotency s !! k) as [rec|]; simpl; [|reflexivity].
  destruct (Qle_bool (expires_at rec) t) eqn:E.
  - rewrite option_guard_False; [reflexivity|]. simpl. congruence.
  - rewrite option_guard_True; [reflexivity|]. simpl. congruence.
Qed.

(** C5. Idempotency window.  Admitting a keyed job records [accepted] with
    [expires_at = now + IDEMP_TTL]; a successful execution turns an existing
    record into [completed], again with [expires_at = now + IDEMP_TTL].  While
    the record is live ([now < expires_at]) a submission with the same key
    that passes the rate limiters gets the duplicate response carrying the
    record's status and enqueues nothing; once [now] has reached [expires_at]
    the submission is handled as a new one: it is enqueued and the record is
    replaced by a fresh [accepted] one. *)
Theorem C5_idempotency_window :
  (forall c body request s k,
      idem_key_of request = Some k -> k <> "" ->
      (enqueue c body request s).2 = inr (mkResp st_enqueued true) ->
      idempotency (enqueue c body request s).1 !! k =
        Some (mkIdem accepted (t_accept c + IDEMP_TTL))) /\
  (forall t u item s k rec,
      fail_times item <= attempt item -> idempotency_key item = Some k -> k <> "" ->
      idempotency s !! k = Some rec ->
      idempotency (process_job t u item s).1 !! k =
        Some (mkIdem completed (t + IDEMP_TTL))) /\
  (forall c body request s k rec,
      idem_key_of request = Some k -> k <> "" ->
      limits_pass c request s = true ->
      idempotency s !! k = Some rec -> (t_lookup c < expires_at rec)%Q ->
      let res := enqueue c body request s in
      res.2 = inr (mkResp (st_idem (status rec)) true) /\
      queue_immediate res.1 = queue_immediate s /\
      idempotency res.1 = idempotency s /\ enqueued res.1 = enqueued s) /\
  (forall c body request s k rec,
      idem_key_of request = Some k -> k <> "" ->
      limits_pass c request s = true ->
      idempotency s !! k = Some rec -> (expires_at rec <= t_lookup c)%Q ->
      full (queue_immediate s) = false ->
      let res := enqueue c body request s in
      res.2 = inr (mkResp st_enqueued true) /\
      queue_immediate res.1 =
        queue_immediate s ++
          [mkJob (default [] (body_payload body)) (body_fail_times body) 0 (Some k)] /\
      idempotency res.1 !! k = Some (mkIdem accepted (t_accept c + IDEMP_TTL)) /\
      enqueued res.1 = enqueued s + 1) /\
  (forall t k s,
      k <> "" ->
      idempotency (idem_set_accepted t k s) !! k =
        Some (mkIdem accepted (t + IDEMP_TTL))) /\
  (forall t k s rec,
      k <> "" -> idempotency s !! k = Some rec ->
      idempotency (idem_set_completed t k s) !! k =
        Some (mkIdem completed (t + IDEMP_TTL))).
Proof.
  repeat apply conj.
  - intros c body request s k Hk Hne Hres.
    pose proof (enqueue_spec c body request s) as H. cbv zeta in H.
    rewrite Hk, (truthy_Some k Hne) in H. simpl in H.
    destruct (negb _).
    { destruct H as (H & _). rewrite H in Hres. discriminate. }
    destruct (negb _).
    { destruct H as (H & _). rewrite H in Hres. discriminate. }
    destruct (idem_get_status _ k s).
    { destruct H as (H & _). rewrite H in Hres. discriminate. }
    destruct (full _).
    { destruct H as (H & _). rewrite H in Hres. discriminate. }
    destruct H as (_ & _ & Hi & _). rewrite Hi. apply lookup_insert_eq.
  - intros t u item s k rec Hok Hk Hne Hrec.
    rewrite (process_job_success t u item s k Hok Hk Hne). simpl.
    apply (idem_set_completed_lookup _ _ _ rec Hne). exact Hrec.
  - intros c body request s k rec Hk Hne Hl Hrec Ht res. subst res.
    pose proof (enqueue_after_limits c body request s k Hl Hk Hne) as H.
    cbv zeta in H. rewrite (idem_get_status_live _ _ _ _ Hne Hrec Ht) in H.
    exact H.
  - intros c body request s k rec Hk Hne Hl Hrec Ht Hf res. subst res.
    pose proof (enqueue_after_limits c body request s k Hl Hk Hne) as H.
    cbv zeta in H. rewrite (idem_get_status_expired _ _ _ _ Hrec Ht), Hf in H.
    destruct H as (Hr & Hq & Hi & He). rewrite Hi.
    repeat split; try assumption. apply lookup_insert_eq.
  - apply idem_set_accepted_lookup.
  - apply idem_set_completed_lookup.
Qed.

(** The scenario of C5 from the initial state: submit key ["k1"] at time 0,
    resubmit at time 1 (duplicate, accepted), execute the job at time 2,
    resubmit at time 3 (duplicate, completed), resubmit at time 700 (new). *)
Lemma C5_idempotency_window_witness :
  idempotency st_accepted !! "k1" = Some (mkIdem accepted (0 + IDEMP_TTL)) /\
  (enqueue (clock_at 1) body_plain req_k1 st_accepted).2 =
    inr (mkResp (st_idem accepted) true) /\
  idempotency st_completed !! "k1" = Some (mkIdem completed (2 + IDEMP_TTL)) /\
  (enqueue (clock_at 3) body_plain req_k1 st_completed).2 =
    inr (mkResp (st_idem completed) true) /\
  (enqueue (clock_at 700) body_plain req_k1 st_completed).2 =
    inr (mkResp st_enqueued true) /\
  idempotency (idem_set_accepted 5 "k1" st_completed) !! "k1" =
    Some (mkIdem accepted (5 + IDEMP_TTL)) /\
  idempotency (idem_set_completed 5 "k1" st_accepted) !! "k1" =
    Some (mkIdem completed (5 + IDEMP_TTL)).
Proof.
  destruct C5_idempotency_window as (HA & HC & HD & HE & HF & HG).
  assert (Hne : "k1" <> "") by discriminate.
  repeat apply conj.
  - apply (HA (clock_at 0) body_plain req_k1 (init 0) "k1");
      [reflexivity | exact Hne | vm_compute; reflexivity].
  - apply (HD (clock_at 1) body_plain req_k1 st_accepted "k1"
              (mkIdem accepted (0 + IDEMP_TTL)));
      [reflexivity | exact Hne | vm_compute; reflexivity
       | vm_compute; reflexivity | vm_compute; reflexivity].
  - apply (HC 2%Q 0%Q job_k1 (set_queue [] st_accepted) "k1"
              (mkIdem accepted (0 + IDEMP_TTL)));
      [vm_compute; discriminate | reflexivity | exact Hne | vm_compute; reflexivity].
  - apply (HD (clock_at 3) body_plain req_k1 st_completed "k1"
              (mkIdem completed (2 + IDEMP_TTL)));
      [reflexivity | exact Hne | vm_compute; reflexivity
       | vm_compute; reflexivity | vm_compute; reflexivity].
  - apply (HE (clock_at 700) body_plain req_k1 st_completed "k1"
              (mkIdem completed (2 + IDEMP_TTL)));
      [reflexivity | exact Hne | vm_compute; reflexivity
       | vm_compute; reflexivity | vm_compute; discriminate | vm_compute; reflexivity].
  - apply (HF 5%Q "k1" st_completed). exact Hne.
  - apply (HG 5%Q "k1" st_accepted (mkIdem accepted (0 + IDEMP_TTL)));
      [exact Hne | vm_compute; reflexivity].
Defined.

(** C10. [idem_set_completed] on a key without a record changes nothing and
    creates no record.  Hence when the sweeper has removed a key's record
    before its job completes, the completion leaves the table without that
    key, and a later submission with the key is never answered as a
    duplicate: past the rate limiters and with room in the queue it is
    enqueued as a new job. *)
Theorem C10_set_completed_absent_is_noop :
  (forall t k s, idempotency s !! k = None -> idem_set_completed t k s = s) /\
  (forall t_sweep s k rec,
      idempotency s !! k = Some rec -> (expires_at rec <= t_sweep)%Q ->
      idempotency (idem_sweep t_sweep s) !! k = None) /\
  (forall t u item s k,
      idempotency s !! k = None ->
      fail_times item <= attempt item -> idempotency_key item = Some k ->
      idempotency (process_job t u item s).1 = idempotency s) /\
  (forall c body request s k,
      idem_key_of request = Some k -> k <> "" ->
      idempotency s !! k = None ->
      let res := enqueue c body request s in
      is_duplicate res.2 = false /\
      (limits_pass c request s = true -> full (queue_immediate s) = false ->
       res.2 = inr (mkResp st_enqueued true) /\
       queue_immediate res.1 =
         queue_immediate s ++
           [mkJob (default [] (body_payload body)) (body_fail_times body) 0 (Some k)])).
Proof.
  repeat apply conj.
  - apply idem_set_completed_absent.
  - intros t_sweep s k rec Hrec Ht. rewrite idem_sweep_lookup, Hrec.
    apply Qle_bool_iff in Ht. rewrite Ht. reflexivity.
  - intros t u item s k Hrec Hok Hk. unfold process_job.
    replace (attempt item <? fail_times item) with false
      by (symmetry; apply Z.ltb_ge; lia).
    rewrite Hk. destruct (truthy (Some k)); [|reflexivity].
    simpl. rewrite idem_set_completed_absent; [reflexivity | exact Hrec].
  - intros c body request s k Hk Hne Hrec res. subst res. split.
    + pose proof (enqueue_spec c body request s) as H. cbv zeta in H.
      rewrite Hk, (truthy_Some k Hne) in H. simpl in H.
      rewrite (idem_get_status_absent _ _ _ Hrec) in H.
      destruct (negb _); [destruct H as (-> & _); reflexivity|].
      destruct (negb _); [destruct H as (-> & _); reflexivity|].
      destruct (full _); [destruct H as (-> & _); reflexivity|].
      destruct H as (-> & _). reflexivity.
    + intros Hl Hf.
      pose proof (enqueue_after_limits c body request s k Hl Hk Hne) as H.
      cbv zeta in H. rewrite (idem_get_status_absent _ _ _ Hrec), Hf in H.
      destruct H as (Hr & Hq & _). auto.
Qed.

(** The scenario of C10: key ["k1"] accepted at time 0, swept at time 650,
    its job executed at time 651, the key resubmitted at time 652. *)
Lemma C10_set_completed_absent_is_noop_witness :
  idem_set_completed 651 "k1" st_swept = st_swept /\
  idempotency st_swept !! "k1" = None /\
  idempotency (process_job 651 0 job_k1 st_swept).1 = idempotency st_swept /\
  (enqueue (clock_at 652) body_plain req_k1 (process_job 651 0 job_k1 st_swept).1).2 =
    inr (mkResp st_enqueued true).
Proof.
  destruct C10_set_completed_absent_is_noop as (HA & HB & HC & HD).
  assert (Hne : "k1" <> "") by discriminate.
  repeat apply conj.
  - apply (HA 651%Q "k1" st_swept). vm_compute. reflexivity.
  - apply (HB 650%Q st_accepted "k1" (mkIdem accepted (0 + IDEMP_TTL)));
      [vm_compute; reflexivity | vm_compute; discriminate].
  - apply (HC 651%Q 0%Q job_k1 st_swept "k1");
      [vm_compute; reflexivity | vm_compute; discriminate | reflexivity].
  - apply (HD (clock_at 652) body_plain req_k1 (process_job 651 0 job_k1 st_swept).1 "k1");
      [reflexivity | exact Hne | vm_compute; reflexivity
       | vm_compute; reflexivity | vm_compute; reflexivity].
Defined.

(** ** Retry scheduling *)

Lemma py_min_mono_l a b c : (a <= b)%Q -> (py_min a c <= py_min b c)%Q.
Proof.
  intros H. rewrite !py_min_spec. apply Q.min_le_compat_r. exact H.
Qed.

Lemma backoff_delay_le_cap k u : (backoff_delay k u <= BACKOFF_CAP)%Q.
Proof. unfold backoff_delay. apply py_min_le_r. Qed.

Lemma backoff_delay_mono k u : (backoff_delay k u <= backoff_delay (k + 1) u)%Q.
Proof.
  unfold backoff_delay. apply py_min_mono_l.
  assert (H : (2 ^ (k - 1) <= 2 ^ (k + 1 - 1))%Q).
  { apply Qpower_le_compat_l; [lia | lra]. }
  unfold BACKOFF_BASE. nra.
Qed.

Lemma sum_delay_mono k us :
  (fold_right Qplus 0 (map (backoff_delay k) us) <=
   fold_right Qplus 0 (map (backoff_delay (k + 1)) us))%Q.
Proof.
  induction us as [|u us IH]; simpl; [lra|].
  pose proof (backoff_delay_mono k u). lra.
Qed.

Lemma mean_delay_mono k us : (mean_delay k us <= mean_delay (k + 1) us)%Q.
Proof.
  unfold mean_delay, Qdiv. apply Qmult_le_compat_r; [apply sum_delay_mono|].
  apply Qinv_le_0_compat. change 0%Q with (inject_Z 0).
  rewrite <- Zle_Qle. lia.
Qed.

Lemma process_job_retry t u item s :
  attempt item < fail_times item -> attempt item + 1 < MAX_ATTEMPTS ->
  process_job t u item s =
  (set_failures (failures s + 1) (set_in_progress (in_progress s + 1) s),
   Some (set_attempt (attempt item + 1) item, backoff_delay (attempt item + 1) u)).
Proof.
  intros Hf Hn. unfold process_job.
  replace (attempt item <? fail_times item) with true
    by (symmetry; apply Z.ltb_lt; lia).
  replace (attempt item + 1 <? MAX_ATTEMPTS) with true
    by (symmetry; apply Z.ltb_lt; lia).
  reflexivity.
Qed.

Lemma process_job_dead_letter t u item s :
  attempt item < fail_times item -> MAX_ATTEMPTS <= attempt item + 1 ->
  process_job t u item s =
  (set_dlq (dlq s ++ [item])
     (set_failures (failures s + 1) (set_in_progress (in_progress s + 1) s)),
   None).
Proof.
  intros Hf Hn. unfold process_job.
  replace (attempt item <? fail_times item) with true
    by (symmetry; apply Z.ltb_lt; lia).
  replace (attempt item + 1 <? MAX_ATTEMPTS) with false
    by (symmetry; apply Z.ltb_ge; lia).
  reflexivity.
Qed.

(** C4. Retry decision.  A failed execution with
    [next_attempt = attempt + 1 < MAX_ATTEMPTS] sets the job's [attempt] to
    [next_attempt] and suspends in [delayed_requeue] with
    [delay = min(BACKOFF_BASE * 2^(next_attempt-1) + u, BACKOFF_CAP)], [u] the
    jitter draw from [0, JITTER].  The delay never exceeds [BACKOFF_CAP]; for
    every draw it is non-decreasing in the attempt number, and therefore so
    is its mean over any sample of draws (its expectation).  When the sleep is
    over and the queue is full the job waits in one bounded [put]; if that
    times out the job is appended to the dead-letter list, otherwise (or when
    the queue had room at once) it is appended to the queue.  With
    [next_attempt >= MAX_ATTEMPTS] the job goes to the dead-letter list at
    once and nothing is scheduled. *)
Theorem C4_retry_decision :
  (forall t u item s,
      attempt item < fail_times item -> attempt item + 1 < MAX_ATTEMPTS ->
      (0 <= u)%Q -> (u <= JITTER)%Q ->
      let next_attempt := attempt item + 1 in
      let delay := backoff_delay next_attempt u in
      process_job t u item s =
        (set_failures (failures s + 1) (set_in_progress (in_progress s + 1) s),
         Some (set_attempt next_attempt item, delay)) /\
      attempt (set_attempt next_attempt item) = next_attempt /\
      (delay == Qmin (BACKOFF_BASE * 2 ^ (next_attempt - 1) + u) BACKOFF_CAP)%Q /\
      (delay <= BACKOFF_CAP)%Q) /\
  (forall k u, (backoff_delay k u <= backoff_delay (k + 1) u)%Q) /\
  (forall k us, (mean_delay k us <= mean_delay (k + 1) us)%Q) /\
  (forall i item d s,
      worker_tasks s !! i = Some (WSleep item d) ->
      step (EvTimer i) s =
        Some (if full (queue_immediate s)
              then set_worker i (WPut item) s
              else set_worker i WIdle
                     (worker_finally (set_queue (queue_immediate s ++ [item]) s)))) /\
  (forall i item s,
      worker_tasks s !! i = Some (WPut item) ->
      step (EvPutTimeout i) s =
        Some (set_worker i WIdle (worker_finally (set_dlq (dlq s ++ [item]) s))) /\
      step (EvPutReady i) s =
        (if full (queue_immediate s) then None
         else Some (set_worker i WIdle
                      (worker_finally (set_queue (queue_immediate s ++ [item]) s)))) /\
      step (EvTimer i) s = None) /\
  (forall t u item s,
      attempt item < fail_times item -> MAX_ATTEMPTS <= attempt item + 1 ->
      process_job t u item s =
        (set_dlq (dlq s ++ [item])
           (set_failures (failures s + 1) (set_in_progress (in_progress s + 1) s)),
         None)).
Proof.
  repeat apply conj.
  - intros t u item s Hf Hn Hu0 Hu1 next_attempt delay.
    split; [apply process_job_retry; assumption|].
    split; [reflexivity|]. split.
    + unfold delay, backoff_delay. apply py_min_spec.
    + apply backoff_delay_le_cap.
  - apply backoff_delay_mono.
  - apply mean_delay_mono.
  - intros i item d s Hw. simpl. rewrite Hw.
    unfold delayed_requeue_wake, put_nowait.
    destruct (full (queue_immediate s)); reflexivity.
  - intros i item s Hw. simpl. rewrite Hw.
    unfold delayed_requeue_put, put_nowait.
    destruct (full (queue_immediate s)); auto.
  - intros t u item s Hf Hn. apply process_job_dead_letter; assumption.
Qed.

Lemma C4_retry_decision_witness :
  process_job 0 (1 # 10) job_flaky (init 0) =
    (set_failures 1 (set_in_progress 1 (init 0)),
     Some (set_attempt 1 job_flaky, backoff_delay 1 (1 # 10))) /\
  (backoff_delay 1 (1 # 10) <= BACKOFF_CAP)%Q /\
  step (EvPutTimeout 0) st_blocked_put =
    Some (set_worker 0 WIdle
            (worker_finally (set_dlq (dlq st_blocked_put ++ [job_flaky]) st_blocked_put))) /\
  process_job 0 0 job_exhausted (init 0) =
    (set_dlq [job_exhausted] (set_failures 1 (set_in_progress 1 (init 0))), None).
Proof.
  destruct C4_retry_decision as (HA & _ & _ & _ & HE & HF).
  repeat apply conj.
  - apply (HA 0%Q (1 # 10)%Q job_flaky (init 0));
      [vm_compute; reflexivity | vm_compute; reflexivity
       | vm_compute; discriminate | vm_compute; discriminate].
  - apply (HA 0%Q (1 # 10)%Q job_flaky (init 0));
      [vm_compute; reflexivity | vm_compute; reflexivity
       | vm_compute; discriminate | vm_compute; discriminate].
  - apply (HE 0%nat job_flaky st_blocked_put). reflexivity.
  - apply (HF 0%Q 0%Q job_exhausted (init 0));
      [vm_compute; reflexivity | vm_compute; discriminate].
Defined.

(** Concrete delays: with no jitter the first retry waits 0.1 s, the second
    0.2 s; a large exponent is clamped to the cap. *)
Example backoff_delay_values :
  (backoff_delay 1 0 == 1 # 10)%Q /\ (backoff_delay 2 0 == 2 # 10)%Q /\
  (backoff_delay 2 JITTER == 4 # 10)%Q /\ (backoff_delay 9 0 == 1)%Q.
Proof. repeat split. Qed.

(** ** Invariant and counters *)

Lemma busy_count_bounds ws : 0 <= busy_count ws <= Z.of_nat (length ws).
Proof.
  induction ws as [|w ws IH]; simpl; [lia|]. destruct (busy w); lia.
Qed.

Lemma busy_count_insert ws : forall i w0 w,
  ws !! i = Some w0 ->
  busy_count (<[i := w]> ws) =
  busy_count ws - (if busy w0 then 1 else 0) + (if busy w then 1 else 0).
Proof.
  induction ws as [|x ws IH]; intros i w0 w Hl; [discriminate|].
  destruct i as [|i]; simpl in *.
  - injection Hl as ->. lia.
  - rewrite (IH i w0 w Hl). lia.
Qed.

Lemma busy_count_pos ws i w0 :
  ws !! i = Some w0 -> busy w0 = true -> 1 <= busy_count ws.
Proof.
  revert i. induction ws as [|x ws IH]; intros i Hl Hb; [discriminate|].
  destruct i as [|i]; simpl in *.
  - injection Hl as ->. rewrite Hb. pose proof (busy_count_bounds ws). lia.
  - specialize (IH i Hl Hb). destruct (busy x); lia.
Qed.

Lemma Forall_wstate_insert ws i w :
  Forall wstate_ok ws -> wstate_ok w -> Forall wstate_ok (<[i := w]> ws).
Proof. intros H Hw. apply Forall_insert; assumption. Qed.

Lemma wstate_ok_lookup ws i w :
  Forall wstate_ok ws -> ws !! i = Some w -> wstate_ok w.
Proof. intros H Hl. eapply Forall_lookup_1; eassumption. Qed.

(** Closes the conjuncts of a frame statement from the equations in scope. *)
Ltac frame_solve :=
  repeat split; first [congruence | left; congruence | right; congruence].

Lemma enqueue_frame c body request s :
  let s' := (enqueue c body request s).1 in
  in_progress s' = in_progress s /\ worker_tasks s' = worker_tasks s /\
  dlq s' = dlq s /\ processed s' = processed s /\ failures s' = failures s /\
  (enqueued s' = enqueued s \/ enqueued s' = enqueued s + 1) /\
  (queue_immediate s' = queue_immediate s \/
   exists item, attempt item = 0 /\ queue_immediate s' = queue_immediate s ++ [item]).
Proof.
  unfold enqueue.
  pose proof (rl_consume_frame (t_global c) 1 s) as Fg. cbv zeta in Fg.
  destruct (rl_consume (t_global c) 1 s) as [sg okg]. simpl in Fg.
  destruct Fg as (Gq & Gi & Ge & Gb & Gd & Gp & Gf & Gn & Gw).
  destruct okg; simpl; [|frame_solve].
  pose proof (rl_consume_client_frame (t_client c) (client_id_of request) 1 sg) as Fc.
  cbv zeta in Fc.
  destruct (rl_consume_client (t_client c) (client_id_of request) 1 sg) as [sc okc].
  simpl in Fc. destruct Fc as (Cq & Ci & Ce & Ct & Cl & Cd & Cp & Cf & Cn & Cw).
  destruct okc; simpl; [|frame_solve].
  destruct (if truthy (idem_key_of request) then _ else None);
    simpl; [frame_solve|].
  destruct (full (queue_immediate sc)) eqn:Hf; simpl; [frame_solve|].
  unfold put_nowait. rewrite Hf.
  assert (Ha : forall t k x, in_progress (idem_set_accepted t k x) = in_progress x /\
            worker_tasks (idem_set_accepted t k x) = worker_tasks x /\
            dlq (idem_set_accepted t k x) = dlq x /\
            processed (idem_set_accepted t k x) = processed x /\
            failures (idem_set_accepted t k x) = failures x /\
            enqueued (idem_set_accepted t k x) = enqueued x /\
            queue_immediate (idem_set_accepted t k x) = queue_immediate x).
  { intros t k x. unfold idem_set_accepted. destruct (String.eqb k ""); simpl; auto 10. }
  destruct (truthy (idem_key_of request)); simpl.
  - destruct (Ha (t_accept c) (default "" (idem_key_of request))
                (set_queue (queue_immediate sc ++
                   [mkJob (default [] (body_payload body)) (body_fail_times body) 0
                      (idem_key_of request)]) sc))
      as (A1 & A2 & A3 & A4 & A5 & A6 & A7).
    rewrite A1, A2, A3, A4, A5, A6, A7. simpl.
    repeat split; try congruence.
    + right. congruence.
    + right. eexists. split; [|rewrite Cq, Gq; reflexivity]. reflexivity.
  - repeat split; try congruence.
    + right. congruence.
    + right. eexists. split; [|rewrite Cq, Gq; reflexivity]. reflexivity.
Qed.

Lemma idem_set_completed_frame t k s :
  let s' := idem_set_completed t k s in
  queue_immediate s' = queue_immediate s /\ processed s' = processed s /\
  failures s' = failures s /\ enqueued s' = enqueued s /\
  in_progress s' = in_progress s /\ dlq s' = dlq s /\
  worker_tasks s' = worker_tasks s.
Proof.
  unfold idem_set_completed. destruct (String.eqb k ""); simpl; auto 10.
  destruct (idempotency s !! k); simpl; auto 10.
Qed.

(** The effect of [process_job] on everything but the idempotency table. *)
Lemma process_job_cases t u item s :
  let r := process_job t u item s in
  queue_immediate r.1 = queue_immediate s /\ worker_tasks r.1 = worker_tasks s /\
  enqueued r.1 = enqueued s /\ in_progress r.1 = in_progress s + 1 /\
  ((attempt item < fail_times item /\ attempt item + 1 < MAX_ATTEMPTS /\
    r.2 = Some (set_attempt (attempt item + 1) item, backoff_delay (attempt item + 1) u) /\
    dlq r.1 = dlq s /\ processed r.1 = processed s /\ failures r.1 = failures s + 1)
   \/
   (attempt item < fail_times item /\ MAX_ATTEMPTS <= attempt item + 1 /\
    r.2 = None /\
    dlq r.1 = dlq s ++ [item] /\ processed r.1 = processed s /\
    failures r.1 = failures s + 1)
   \/
   (fail_times item <= attempt item /\ r.2 = None /\
    dlq r.1 = dlq s /\ processed r.1 = processed s + 1 /\ failures r.1 = failures s)).
Proof.
  unfold process_job.
  destruct (attempt item <? fail_times item) eqn:Hf.
  - apply Z.ltb_lt in Hf.
    destruct (attempt item + 1 <? MAX_ATTEMPTS) eqn:Hn.
    + apply Z.ltb_lt in Hn. simpl. repeat split. left. auto 10.
    + apply Z.ltb_ge in Hn. simpl. repeat split. right. left. auto 10.
  - apply Z.ltb_ge in Hf.
    destruct (truthy (idempotency_key item)).
    + pose proof (idem_set_completed_frame t (default "" (idempotency_key item))
                    (set_processed (processed (set_in_progress (in_progress s + 1) s) + 1)
                       (set_in_progress (in_progress s + 1) s))) as F.
      cbv zeta in F. destruct F as (F1 & F2 & F3 & F4 & F5 & F6 & F7).
      cbn [fst snd]. rewrite F1, F2, F3, F4, F5, F6, F7. simpl.
      repeat split. right. right. auto 10.
    + simpl. repeat split. right. right. auto 10.
Qed.

(** What [dlq_requeue] does to the state: a prefix of the dead-letter list
    moves to the back of the queue; nothing else changes. *)
Lemma dlq_requeue_effect limit s :
  let s' := (dlq_requeue limit s).1 in
  exists taken,
    dlq s = taken ++ dlq s' /\ queue_immediate s' = queue_immediate s ++ taken /\
    processed s' = processed s /\ failures s' = failures s /\
    enqueued s' = enqueued s /\ in_progress s' = in_progress s /\
    worker_tasks s' = worker_tasks s /\ idempotency s' = idempotency s.
Proof.
  unfold dlq_requeue.
  destruct (dlq_requeue_loop_spec limit (dlq s) 0 (queue_immediate s))
    as (taken & rest & Hd & [[Hr _] | [Hr _]]);
    cbv zeta in Hr; rewrite Hr; simpl; exists taken; auto 10.
Qed.

(** The three outcomes of a worker obtaining a job (event [EvGet]). *)
Lemma step_get_cases i t u s s' :
  step (EvGet i t u) s = Some s' ->
  exists item rest,
    worker_tasks s !! i = Some WIdle /\ queue_immediate s = item :: rest /\
    jitter_ok u = true /\
    queue_immediate s' = rest /\ enqueued s' = enqueued s /\
    ((attempt item < fail_times item /\ attempt item + 1 < MAX_ATTEMPTS /\
      worker_tasks s' =
        <[i := WSleep (set_attempt (attempt item + 1) item)
                      (backoff_delay (attempt item + 1) u)]> (worker_tasks s) /\
      in_progress s' = in_progress s + 1 /\ dlq s' = dlq s /\
      processed s' = processed s /\ failures s' = failures s + 1)
     \/
     (attempt item < fail_times item /\ MAX_ATTEMPTS <= attempt item + 1 /\
      worker_tasks s' = worker_tasks s /\
      in_progress s' = Z.max 0 (in_progress s + 1 - 1) /\ dlq s' = dlq s ++ [item] /\
      processed s' = processed s /\ failures s' = failures s + 1)
     \/
     (fail_times item <= attempt item /\
      worker_tasks s' = worker_tasks s /\
      in_progress s' = Z.max 0 (in_progress s + 1 - 1) /\ dlq s' = dlq s /\
      processed s' = processed s + 1 /\ failures s' = failures s)).
Proof.
  simpl. destruct (worker_tasks s !! i) as [[| | |]|] eqn:Hw; try discriminate.
  destruct (queue_immediate s) as [|item rest] eqn:Hq; [discriminate|].
  destruct (jitter_ok u) eqn:Hu; [|discriminate].
  pose proof (process_job_cases t u item (set_queue rest s)) as H. cbv zeta in H.
  destruct (process_job t u item (set_queue rest s)) as [s1 o]. simpl in H.
  destruct H as (H1 & H2 & H3 & H4 & H5).
  intros Hs. exists item, rest. do 3 (split; [reflexivity|]).
  destruct H5 as [(A & B & -> & D & E & F) | [(A & B & -> & D & E & F) | (A & -> & D & E & F)]];
    injection Hs as <-; simpl; rewrite ?H1, ?H2, ?H3, ?H4, ?D, ?E, ?F;
    (split; [reflexivity|]); (split; [reflexivity|]).
  - left. auto 10.
  - right. left. auto 10.
  - right. right. auto 10.
Qed.

Lemma Inv_init t0 : Inv (init t0).
Proof. split; simpl; repeat constructor. Qed.

Lemma step_inv e s s' : Inv s -> step e s = Some s' -> Inv s'.
Proof.
  intros [Iw Ip Iq Id It] Hs.
  pose proof (busy_count_bounds (worker_tasks s)) as Hb.
  destruct e as [c body request | i t u | i | i | i | t | limit | limit | i].
  - (* enqueue *)
    simpl in Hs. injection Hs as <-.
    destruct (enqueue_frame c body request s) as (F1 & F2 & F3 & _ & _ & _ & F7).
    split; rewrite ?F1, ?F2, ?F3; try assumption.
    destruct F7 as [-> | (item & Ha & ->)]; [assumption|].
    apply Forall_app. split; [assumption|]. constructor; [|constructor].
    unfold attempt_ok, MAX_ATTEMPTS. lia.
  - (* a worker obtains a job *)
    destruct (step_get_cases _ _ _ _ _ Hs)
      as (item & rest & Hw & Hq & _ & Hq' & _ & Hc).
    rewrite Hq in Iq. inversion Iq as [|? ? Hitem Hrest]; subst.
    destruct Hc as [(A & B & W & P & D & _) | [(A & B & W & P & D & _) | (A & W & P & D & _)]];
      split; rewrite ?W, ?P, ?D, ?Hq'; try assumption.
    + rewrite length_insert. assumption.
    + rewrite (busy_count_insert _ _ _ _ Hw). simpl. lia.
    + apply Forall_wstate_insert; [assumption|].
      simpl. unfold attempt_ok in *. simpl. lia.
    + lia.
    + apply Forall_app. split; [assumption|]. constructor; [assumption|constructor].
    + lia.
  - (* the sleep is over *)
    simpl in Hs. destruct (worker_tasks s !! i) as [[|item d| |]|] eqn:Hw; try discriminate.
    pose proof (wstate_ok_lookup _ _ _ It Hw) as Hok. simpl in Hok.
    pose proof (busy_count_pos _ _ _ Hw eq_refl) as Hpos.
    unfold delayed_requeue_wake, put_nowait in Hs.
    destruct (full (queue_immediate s)); injection Hs as <-; split; simpl.
    + rewrite length_insert. assumption.
    + rewrite (busy_count_insert _ _ _ _ Hw). simpl. lia.
    + assumption.
    + assumption.
    + apply Forall_wstate_insert; assumption.
    + rewrite length_insert. assumption.
    + rewrite (busy_count_insert _ _ _ _ Hw). simpl. lia.
    + apply Forall_app. split; [assumption|]. constructor; [assumption|constructor].
    + assumption.
    + apply Forall_wstate_insert; [assumption|exact I].
  - (* the bounded put gets room *)
    simpl in Hs. destruct (worker_tasks s !! i) as [[| |item|]|] eqn:Hw; try discriminate.
    pose proof (wstate_ok_lookup _ _ _ It Hw) as Hok. simpl in Hok.
    pose proof (busy_count_pos _ _ _ Hw eq_refl) as Hpos.
    unfold delayed_requeue_put, put_nowait in Hs.
    destruct (full (queue_immediate s)); [discriminate|].
    injection Hs as <-; split; simpl.
    + rewrite length_insert. assumption.
    + rewrite (busy_count_insert _ _ _ _ Hw). simpl. lia.
    + apply Forall_app. split; [assumption|]. constructor; [assumption|constructor].
    + assumption.
    + apply Forall_wstate_insert; [assumption|exact I].
  - (* the bounded put times out *)
    simpl in Hs. destruct (worker_tasks s !! i) as [[| |item|]|] eqn:Hw; try discriminate.
    pose proof (wstate_ok_lookup _ _ _ It Hw) as Hok. simpl in Hok.
    pose proof (busy_count_pos _ _ _ Hw eq_refl) as Hpos.
    injection Hs as <-; split; simpl.
    + rewrite length_insert. assumption.
    + rewrite (busy_count_insert _ _ _ _ Hw). simpl. lia.
    + assumption.
    + apply Forall_app. split; [assumption|]. constructor; [assumption|constructor].
    + apply Forall_wstate_insert; [assumption|exact I].
  - (* sweep *)
    simpl in Hs. injection Hs as <-. split; assumption.
  - (* dlq listing *)
    simpl in Hs. injection Hs as <-. split; assumption.
  - (* dlq requeue *)
    simpl in Hs. injection Hs as <-.
    destruct (dlq_requeue_effect limit s) as (taken & Hd & Hq & _ & _ & _ & Hp & Hw & _).
    rewrite Hd in Id. apply Forall_app in Id. destruct Id as [Id1 Id2].
    split; rewrite ?Hp, ?Hw, ?Hq; try assumption.
    apply Forall_app. split; assumption.
  - (* cancellation *)
    simpl in Hs. destruct (worker_tasks s !! i) as [[|item d|item|]|] eqn:Hw; try discriminate;
      injection Hs as <-; split; simpl;
      rewrite ?length_insert, ?(busy_count_insert _ _ _ _ Hw); simpl;
      try assumption; try (apply Forall_wstate_insert; [assumption|exact I]).
    + lia.
    + pose proof (busy_count_pos _ _ _ Hw eq_refl). lia.
    + pose proof (busy_count_pos _ _ _ Hw eq_refl). lia.
Qed.

Lemma run_inv es : forall s s', Inv s -> run es s = Some s' -> Inv s'.
Proof.
  induction es as [|e es IH]; intros s s' Hi Hr; simpl in Hr.
  - injection Hr as <-. exact Hi.
  - destruct (step e s) as [s1|] eqn:Hs; [|discriminate].
    eapply IH; [|exact Hr]. eapply step_inv; eassumption.
Qed.

Lemma reachable_inv s : reachable s -> Inv s.
Proof.
  intros (t0 & es & Hr). eapply run_inv; [apply Inv_init | exact Hr].
Qed.

Lemma step_counters e s s' :
  step e s = Some s' ->
  enqueued s <= enqueued s' /\ processed s <= processed s' /\ failures s <= failures s'.
Proof.
  intros Hs.
  destruct e as [c body request | i t u | i | i | i | t | limit | limit | i].
  - simpl in Hs. injection Hs as <-.
    destruct (enqueue_frame c body request s) as (_ & _ & _ & F4 & F5 & F6 & _).
    rewrite F4, F5. destruct F6 as [-> | ->]; lia.
  - destruct (step_get_cases _ _ _ _ _ Hs) as (item & rest & _ & _ & _ & _ & He & Hc).
    rewrite He.
    destruct Hc as [(_ & _ & _ & _ & _ & -> & ->) | [(_ & _ & _ & _ & _ & -> & ->)
                   | (_ & _ & _ & _ & -> & ->)]]; lia.
  - simpl in Hs. destruct (worker_tasks s !! i) as [[|item d| |]|]; try discriminate.
    unfold delayed_requeue_wake, put_nowait in Hs.
    destruct (full (queue_immediate s)); injection Hs as <-; simpl; lia.
  - simpl in Hs. destruct (worker_tasks s !! i) as [[| |item|]|]; try discriminate.
    unfold delayed_requeue_put, put_nowait in Hs.
    destruct (full (queue_immediate s)); [discriminate|].
    injection Hs as <-; simpl; lia.
  - simpl in Hs. destruct (worker_tasks s !! i) as [[| |item|]|]; try discriminate.
    injection Hs as <-; simpl; lia.
  - simpl in Hs. injection Hs as <-. simpl. lia.
  - simpl in Hs. injection Hs as <-. lia.
  - simpl in Hs. injection Hs as <-.
    destruct (dlq_requeue_effect limit s) as (taken & _ & _ & -> & -> & -> & _). lia.
  - simpl in Hs. destruct (worker_tasks s !! i) as [[|item d|item|]|]; try discriminate;
      injection Hs as <-; simpl; lia.
Qed.

Lemma run_counters es : forall s s',
  run es s = Some s' ->
  enqueued s <= enqueued s' /\ processed s <= processed s' /\ failures s <= failures s'.
Proof.
  induction es as [|e es IH]; intros s s' Hr; simpl in Hr.
  - injection Hr as <-. lia.
  - destruct (step e s) as [s1|] eqn:Hs; [|discriminate].
    pose proof (step_counters _ _ _ Hs). pose proof (IH _ _ Hr). lia.
Qed.

(** C9. Across every transition of the engine the counters [enqueued],
    [processed] and [failures] do not decrease, and in every reachable state
    [0 <= in_progress <= WORKERS]. *)
Theorem C9_counters_and_in_progress :
  (forall e s s',
      step e s = Some s' ->
      enqueued s <= enqueued s' /\ processed s <= processed s' /\
      failures s <= failures s') /\
  (forall s, reachable s -> 0 <= in_progress s <= Z.of_nat WORKERS).
Proof.
  split.
  - apply step_counters.
  - intros s Hr. destruct (reachable_inv s Hr) as [Iw Ip _ _ _].
    pose proof (busy_count_bounds (worker_tasks s)) as Hb.
    rewrite Iw in Hb. lia.
Qed.

Lemma C9_counters_and_in_progress_witness :
  (enqueued (init 0) <= 1 /\ processed (init 0) <= 0 /\ failures (init 0) <= 0) /\
  (exists s, run sched_all_backing_off (init 0) = Some s /\
             in_progress s = 4 /\ 0 <= in_progress s <= Z.of_nat WORKERS).
Proof.
  destruct C9_counters_and_in_progress as [HA HB]. split.
  - apply (HA (submit_failing 1) (init 0) (enqueue (clock_at 0) (mkBody None 1 None)
              (mkRequest (Some "alice") None None None) (init 0)).1).
    reflexivity.
  - destruct (run sched_all_backing_off (init 0)) as [s|] eqn:E;
      [|vm_compute in E; discriminate].
    exists s. split; [reflexivity|]. split.
    + vm_compute in E. injection E as <-. reflexivity.
    + apply HB. exists 0%Q, sched_all_backing_off. exact E.
Defined.

(** ** Dead-letter boundary *)

Lemma app_singleton_neq {A} (l : list A) (x : A) : l ++ [x] <> l.
Proof.
  intros H. apply (f_equal length) in H. rewrite length_app in H. simpl in H. lia.
Qed.

(** The worker dead-letters a job with its [attempt] field left as it was
    when the job was obtained: after the schedule [sched_exhaust] the job has
    failed [MAX_ATTEMPTS] times and lies in the dead-letter list with
    [attempt = 2], not [MAX_ATTEMPTS]. *)
Lemma C2_dead_lettered_attempt_below_max :
  exists s j,
    run sched_exhaust (init 0) = Some s /\
    dlq s = [j] /\ failures s = MAX_ATTEMPTS /\
    attempt j = 2 /\ attempt j <> MAX_ATTEMPTS.
Proof.
  eexists. exists (mkJob [] 3 2 None).
  split; [vm_compute; reflexivity|].
  repeat split. discriminate.
Qed.

(** C2 (amended). In a reachable state a transition changes the dead-letter
    list in one of three ways only.  (1) A worker executes a job: the job is
    appended exactly when the execution failed with
    [attempt + 1 >= MAX_ATTEMPTS], and then [attempt = MAX_ATTEMPTS - 1],
    the field being left unchanged.  (2) The bounded [put] of a delayed
    re-enqueue times out: the job is appended, with
    [0 <= attempt < MAX_ATTEMPTS].  (3) [dlq_requeue] removes a prefix.
    Every other transition leaves the list as it is. *)
Theorem C2_dead_letter_boundary e s s' :
  reachable s -> step e s = Some s' ->
  match e with
  | EvGet i t u =>
      exists item rest,
        queue_immediate s = item :: rest /\
        (dlq s' = dlq s ++ [item] <->
         attempt item < fail_times item /\ MAX_ATTEMPTS <= attempt item + 1) /\
        (dlq s' = dlq s ++ [item] -> attempt item = MAX_ATTEMPTS - 1) /\
        (dlq s' = dlq s ++ [item] \/ dlq s' = dlq s)
  | EvPutTimeout i =>
      exists item,
        worker_tasks s !! i = Some (WPut item) /\ dlq s' = dlq s ++ [item] /\
        0 <= attempt item < MAX_ATTEMPTS
  | EvDlqRequeue limit => exists taken, dlq s = taken ++ dlq s'
  | _ => dlq s' = dlq s
  end.
Proof.
  intros Hr Hs. destruct (reachable_inv s Hr) as [Iw Ip Iq Id It].
  destruct e as [c body request | i t u | i | i | i | t | limit | limit | i].
  - simpl in Hs. injection Hs as <-.
    destruct (enqueue_frame c body request s) as (_ & _ & F3 & _). exact F3.
  - destruct (step_get_cases _ _ _ _ _ Hs)
      as (item & rest & Hw & Hq & _ & _ & _ & Hc).
    exists item, rest. split; [exact Hq|].
    rewrite Hq in Iq. inversion Iq as [|? ? Hitem Hrest]; subst.
    unfold attempt_ok in Hitem.
    destruct Hc as [(A & B & _ & _ & D & _) | [(A & B & _ & _ & D & _) | (A & _ & _ & D & _)]];
      rewrite D.
    + split; [|split; [|right; reflexivity]].
      * split; [intros H; symmetry in H; destruct (app_singleton_neq _ _ H) | lia].
      * intros H. symmetry in H. destruct (app_singleton_neq _ _ H).
    + split; [|split; [|left; reflexivity]].
      * split; [intros _; lia | reflexivity].
      * intros _. lia.
    + split; [|split; [|right; reflexivity]].
      * split; [intros H; symmetry in H; destruct (app_singleton_neq _ _ H) | lia].
      * intros H. symmetry in H. destruct (app_singleton_neq _ _ H).
  - simpl in Hs. destruct (worker_tasks s !! i) as [[|item d| |]|]; try discriminate.
    unfold delayed_requeue_wake, put_nowait in Hs.
    destruct (full (queue_immediate s)); injection Hs as <-; reflexivity.
  - simpl in Hs. destruct (worker_tasks s !! i) as [[| |item|]|]; try discriminate.
    unfold delayed_requeue_put, put_nowait in Hs.
    destruct (full (queue_immediate s)); [discriminate|].
    injection Hs as <-; reflexivity.
  - simpl in Hs. destruct (worker_tasks s !! i) as [[| |item|]|] eqn:Hw; try discriminate.
    injection Hs as <-. exists item. split; [reflexivity|]. split; [reflexivity|].
    exact (wstate_ok_lookup _ _ _ It Hw).
  - simpl in Hs. injection Hs as <-. reflexivity.
  - simpl in Hs. injection Hs as <-. reflexivity.
  - simpl in Hs. injection Hs as <-.
    destruct (dlq_requeue_effect limit s) as (taken & Hd & _). exists taken. exact Hd.
  - simpl in Hs. destruct (worker_tasks s !! i) as [[|item d|item|]|]; try discriminate;
      injection Hs as <-; reflexivity.
Qed.

Lemma C2_dead_letter_boundary_witness :
  reachable st_last_attempt /\
  step (EvGet 0 0 0) st_last_attempt = Some st_exhausted /\
  exists item rest,
    queue_immediate st_last_attempt = item :: rest /\
    (dlq st_exhausted = dlq st_last_attempt ++ [item] <->
     attempt item < fail_times item /\ MAX_ATTEMPTS <= attempt item + 1) /\
    (dlq st_exhausted = dlq st_last_attempt ++ [item] ->
     attempt item = MAX_ATTEMPTS - 1) /\
    (dlq st_exhausted = dlq st_last_attempt ++ [item] \/
     dlq st_exhausted = dlq st_last_attempt).
Proof.
  assert (Hr : reachable st_last_attempt).
  { exists 0%Q, sched_last_attempt. vm_compute. reflexivity. }
  assert (Hs : step (EvGet 0 0 0) st_last_attempt = Some st_exhausted).
  { vm_compute. reflexivity. }
  split; [exact Hr|]. split; [exact Hs|].
  exact (C2_dead_letter_boundary (EvGet 0 0 0) st_last_attempt st_exhausted Hr Hs).
Defined.

(** The boundary is on the [attempt] field, not on the number of failures:
    a dead-lettered job put back by [dlq_requeue] keeps [attempt = 2], fails
    a fourth time and is dead-lettered again with the same [attempt]. *)
Example requeued_job_is_dead_lettered_again :
  exists s,
    run (sched_exhaust ++ [EvDlqRequeue 1; EvGet 0 0 0]) (init 0) = Some s /\
    dlq s = [mkJob [] 3 2 None] /\ failures s = 4 /\ processed s = 0.
Proof. eexists. split; [vm_compute; reflexivity|]. repeat split. Qed.

(** ** Workers during a backoff *)

(** A worker that is not suspended in [queue_immediate.get()] cannot obtain
    a job: in particular not while it is inside [delayed_requeue]. *)
Lemma step_get_needs_idle i t u s :
  worker_tasks s !! i <> Some WIdle -> step (EvGet i t u) s = None.
Proof.
  intros H. simpl. destruct (worker_tasks s !! i) as [[| | |]|]; try reflexivity.
  congruence.
Qed.

(** C1. [process_job] awaits [delayed_requeue] itself, so the worker task
    that ran the failed job stays suspended in the backoff sleep.  After four
    failing jobs and one healthy job have been submitted and each of the four
    workers has run one failing job, the healthy job is waiting in the queue,
    every worker is inside its [asyncio.sleep], [in_progress] is 4, and no
    worker can obtain the waiting job; it is picked up only after a timer
    has fired. *)
Theorem C1_backoff_sleep_occupies_worker :
  run sched_all_backing_off (init 0) = Some st_all_backing_off /\
  queue_immediate st_all_backing_off = [mkJob [] 0 0 None] /\
  worker_tasks st_all_backing_off =
    replicate WORKERS (WSleep (mkJob [] 1 1 None) (backoff_delay 1 0)) /\
  in_progress st_all_backing_off = 4 /\
  (forall i t u, step (EvGet i t u) st_all_backing_off = None) /\
  can_get 0 (default (init 0) (step (EvTimer 0) st_all_backing_off)) = true.
Proof.
  assert (Hw : worker_tasks st_all_backing_off =
               replicate WORKERS (WSleep (mkJob [] 1 1 None) (backoff_delay 1 0))).
  { vm_compute. reflexivity. }
  split; [vm_compute; reflexivity|].
  split; [vm_compute; reflexivity|].
  split; [exact Hw|].
  split; [vm_compute; reflexivity|].
  split; [|vm_compute; reflexivity].
  intros i t u. apply step_get_needs_idle. rewrite Hw.
  destruct i as [|[|[|[|i]]]]; simpl; discriminate.
Qed.

(** * Further properties of the service *)

(** ** Induction over reachable states *)

Lemma run_preserves (P : State -> Prop) :
  (forall e s s', P s -> step e s = Some s' -> P s') ->
  forall es s s', P s -> run es s = Some s' -> P s'.
Proof.
  intros Hstep. induction es as [|e es IH]; intros s s' Hp Hr; simpl in Hr.
  - injection Hr as <-. exact Hp.
  - destruct (step e s) as [s1|] eqn:Hs; [|discriminate].
    eapply IH; [|exact Hr]. eapply Hstep; eassumption.
Qed.

Lemma reachable_preserves (P : State -> Prop) :
  (forall t0, P (init t0)) ->
  (forall e s s', P s -> step e s = Some s' -> P s') ->
  forall s, reachable s -> P s.
Proof.
  intros Hi Hstep s (t0 & es & Hr).
  eapply run_preserves; [exact Hstep | apply Hi | exact Hr].
Qed.

(** ** Admission outcome *)

(** Either [enqueue] answers "enqueued", the queue had room, the new item is
    at its back and the counter went up by one; or it answers something else
    and queue, counter and idempotency table are as before. *)
Lemma enqueue_outcome c body request s :
  let res := enqueue c body request s in
  (is_enqueued res.2 = true /\ full (queue_immediate s) = false /\
   queue_immediate res.1 = queue_immediate s ++ [item_of body request] /\
   enqueued res.1 = enqueued s + 1)
  \/
  (is_enqueued res.2 = false /\ queue_immediate res.1 = queue_immediate s /\
   enqueued res.1 = enqueued s /\ idempotency res.1 = idempotency s).
Proof.
  pose proof (enqueue_spec c body request s) as H. cbv zeta in H. cbv zeta.
  destruct (negb _).
  { destruct H as (-> & (Hq & Hi & He) & _). right. simpl. auto. }
  destruct (negb _).
  { destruct H as (-> & (Hq & Hi & He)). right. simpl. auto. }
  destruct (if truthy (idem_key_of request) then _ else None).
  { destruct H as (-> & (Hq & Hi & He)). right. simpl. auto. }
  destruct (full (queue_immediate s)).
  { destruct H as (-> & (Hq & Hi & He)). right. simpl. auto. }
  destruct H as (Hr & Hq & _ & He & _). left. rewrite Hr. simpl.
  unfold item_of. auto.
Qed.

Lemma full_false_length q : full q = false -> Z.of_nat (length q) < Q_MAX.
Proof.
  unfold full. intros H. apply andb_false_iff in H. destruct H as [H | H].
  - apply Z.ltb_ge in H. unfold Q_MAX in H. lia.
  - apply Z.leb_gt in H. exact H.
Qed.

(** ** Backpressure: the queue never exceeds its capacity *)

Lemma dlq_requeue_loop_bound limit : forall d moved q,
  Z.of_nat (length q) <= Q_MAX ->
  Z.of_nat (length (dlq_requeue_loop limit moved d q).2) <= Q_MAX.
Proof.
  induction d as [|item d IH]; intros moved q Hq; simpl; [exact Hq|].
  destruct (moved <? limit); [|exact Hq].
  unfold put_nowait. destruct (full q) eqn:Hf; [exact Hq|].
  apply IH. apply full_false_length in Hf. rewrite length_app. simpl. lia.
Qed.

Lemma step_queue_bound e s s' :
  Z.of_nat (length (queue_immediate s)) <= Q_MAX ->
  step e s = Some s' ->
  Z.of_nat (length (queue_immediate s')) <= Q_MAX.
Proof.
  intros Hb Hs.
  destruct e as [c body request | i t u | i | i | i | t | limit | limit | i].
  - simpl in Hs. injection Hs as <-.
    destruct (enqueue_outcome c body request s) as [(_ & Hf & -> & _) | (_ & -> & _)];
      [|exact Hb].
    apply full_false_length in Hf. rewrite length_app. simpl. lia.
  - destruct (step_get_cases _ _ _ _ _ Hs) as (item & rest & _ & Hq & _ & -> & _).
    rewrite Hq in Hb. simpl length in Hb. lia.
  - simpl in Hs. destruct (worker_tasks s !! i) as [[|item d| |]|]; try discriminate.
    unfold delayed_requeue_wake, put_nowait in Hs.
    destruct (full (queue_immediate s)) eqn:Hf; injection Hs as <-; simpl; [exact Hb|].
    apply full_false_length in Hf. rewrite length_app. simpl. lia.
  - simpl in Hs. destruct (worker_tasks s !! i) as [[| |item|]|]; try discriminate.
    unfold delayed_requeue_put, put_nowait in Hs.
    destruct (full (queue_immediate s)) eqn:Hf; [discriminate|].
    injection Hs as <-; simpl.
    apply full_false_length in Hf. rewrite length_app. simpl. lia.
  - simpl in Hs. destruct (worker_tasks s !! i) as [[| |item|]|]; try discriminate.
    injection Hs as <-; simpl. exact Hb.
  - simpl in Hs. injection Hs as <-. exact Hb.
  - simpl in Hs. injection Hs as <-. exact Hb.
  - simpl in Hs. injection Hs as <-. unfold dlq_requeue.
    pose proof (dlq_requeue_loop_bound limit (dlq s) 0 (queue_immediate s) Hb) as H.
    destruct (dlq_requeue_loop limit 0 (dlq s) (queue_immediate s)) as [[m d] q].
    exact H.
  - simpl in Hs. destruct (worker_tasks s !! i) as [[|item d|item|]|]; try discriminate;
      injection Hs as <-; simpl; exact Hb.
Qed.

(** X1. Backpressure: in every reachable state the queue holds at most
    [Q_MAX] jobs, whichever of [enqueue], the retry path and [dlq_requeue]
    put them there. *)
Theorem queue_never_exceeds_capacity s :
  reachable s -> Z.of_nat (length (queue_immediate s)) <= Q_MAX.
Proof.
  apply (reachable_preserves (fun s => Z.of_nat (length (queue_immediate s)) <= Q_MAX)).
  - intros t0. simpl. unfold Q_MAX. lia.
  - apply step_queue_bound.
Qed.

Lemma queue_never_exceeds_capacity_witness :
  Z.of_nat (length (queue_immediate st_all_backing_off)) <= Q_MAX.
Proof.
  apply queue_never_exceeds_capacity.
  exists 0%Q, sched_all_backing_off. vm_compute. reflexivity.
Defined.

(** X2. In every reachable state every job in the queue, in the dead-letter
    list or held by a worker has [0 <= attempt < MAX_ATTEMPTS]: the retry
    budget is never overrun, and the four worker tasks stay four. *)
Theorem attempts_stay_within_budget s :
  reachable s ->
  Forall attempt_ok (queue_immediate s) /\ Forall attempt_ok (dlq s) /\
  Forall wstate_ok (worker_tasks s) /\ length (worker_tasks s) = WORKERS.
Proof.
  intros Hr. destruct (reachable_inv s Hr) as [Iw Ip Iq Id It]. auto.
Qed.

Lemma attempts_stay_within_budget_witness :
  Forall attempt_ok (queue_immediate st_exhausted) /\
  Forall attempt_ok (dlq st_exhausted) /\
  Forall wstate_ok (worker_tasks st_exhausted) /\
  length (worker_tasks st_exhausted) = WORKERS.
Proof.
  apply attempts_stay_within_budget.
  exists 0%Q, sched_exhaust. vm_compute. reflexivity.
Defined.

(** X3. The [enqueued] counter counts exactly the accepted submissions:
    [enqueue] answers "enqueued" if and only if the counter goes up by one,
    and then the queue had room and the new item, with [attempt = 0], is at
    its back; with any other answer the queue and the counter are unchanged. *)
Theorem enqueue_counts_accepted c body request s :
  let res := enqueue c body request s in
  (is_enqueued res.2 = true <-> enqueued res.1 = enqueued s + 1) /\
  (is_enqueued res.2 = true ->
   full (queue_immediate s) = false /\
   queue_immediate res.1 = queue_immediate s ++ [item_of body request] /\
   attempt (item_of body request) = 0 /\
   fail_times (item_of body request) = body_fail_times body) /\
  (is_enqueued res.2 = false ->
   queue_immediate res.1 = queue_immediate s /\ enqueued res.1 = enqueued s) /\
  dlq res.1 = dlq s /\ processed res.1 = processed s /\ failures res.1 = failures s /\
  in_progress res.1 = in_progress s /\ worker_tasks res.1 = worker_tasks s.
Proof.
  cbv zeta.
  destruct (enqueue_frame c body request s) as (F1 & F2 & F3 & F4 & F5 & _).
  destruct (enqueue_outcome c body request s)
    as [(Hr & Hf & Hq & He) | (Hr & Hq & He & _)]; rewrite Hr, He.
  - repeat split; auto; discriminate.
  - repeat split; auto; try discriminate; lia.
Qed.

Lemma enqueue_counts_accepted_witness :
  full (queue_immediate (init 0)) = false /\
  queue_immediate (enqueue (clock_at 0) body_plain req_k1 (init 0)).1 =
    queue_immediate (init 0) ++ [item_of body_plain req_k1] /\
  attempt (item_of body_plain req_k1) = 0 /\
  fail_times (item_of body_plain req_k1) = body_fail_times body_plain.
Proof.
  apply (enqueue_counts_accepted (clock_at 0) body_plain req_k1 (init 0)).
  vm_compute. reflexivity.
Defined.

(** ** Dead-letter requeue and listing *)

Lemma dlq_requeue_loop_taken limit : forall d moved q,
  exists taken rest,
    d = taken ++ rest /\
    (dlq_requeue_loop limit moved d q).1.2 = rest /\
    (dlq_requeue_loop limit moved d q).2 = q ++ taken /\
    moved + Z.of_nat (length taken) <= Z.max moved limit /\
    let n := (dlq_requeue_loop limit moved d q).1.1 in
    (n = moved + Z.of_nat (length taken) \/
     n = moved + Z.of_nat (length taken) + 1 /\ full (q ++ taken) = true /\ rest <> []).
Proof.
  induction d as [|item d IH]; intros moved q.
  - exists [], []. simpl. rewrite app_nil_r. repeat split; lia.
  - simpl. destruct (moved <? limit) eqn:Hm.
    + apply Z.ltb_lt in Hm. rewrite set_attempt_same. unfold put_nowait.
      destruct (full q) eqn:Hf.
      * exists [], (item :: d). simpl. rewrite app_nil_r.
        split; [reflexivity|]. split; [reflexivity|]. split; [reflexivity|].
        split; [lia|]. right. repeat split; [lia | exact Hf | discriminate].
      * destruct (IH (moved + 1) (q ++ [item])) as (taken & rest & Hd & H1 & H2 & H3 & H4).
        exists (item :: taken), rest. rewrite H1, H2. cbv zeta in H4.
        rewrite <- app_assoc in H2 |- *. simpl.
        split; [congruence|]. split; [reflexivity|]. split; [reflexivity|].
        split; [lia|].
        rewrite <- app_assoc in H4. simpl in H4.
        destruct H4 as [H4 | (H4 & H5 & H6)]; [left; lia | right; auto with lia].
    + exists [], (item :: d). simpl. rewrite app_nil_r. repeat split; lia.
Qed.

(** X4. [dlq_requeue] moves a prefix of the dead-letter list, oldest first
    and in order, to the back of the queue: no job is lost, duplicated or
    reordered.  At most [limit] jobs move (none when [limit <= 0]); the
    reported count is the number moved, or one more when the loop stopped on
    a job the full queue refused, which then is still at the front of the
    dead-letter list.  Nothing else in the state changes. *)
Theorem dlq_requeue_moves_prefix limit s :
  let s' := (dlq_requeue limit s).1 in
  let reported := (dlq_requeue limit s).2 in
  exists taken,
    dlq s = taken ++ dlq s' /\
    queue_immediate s' = queue_immediate s ++ taken /\
    queue_immediate s' ++ dlq s' = queue_immediate s ++ dlq s /\
    Z.of_nat (length taken) <= Z.max 0 limit /\
    (reported = Z.of_nat (length taken) \/
     reported = Z.of_nat (length taken) + 1 /\
     full (queue_immediate s') = true /\ dlq s' <> []) /\
    processed s' = processed s /\ failures s' = failures s /\
    enqueued s' = enqueued s /\ in_progress s' = in_progress s /\
    worker_tasks s' = worker_tasks s /\ idempotency s' = idempotency s /\
    tokens s' = tokens s /\ last_refill s' = last_refill s /\
    client_buckets s' = client_buckets s.
Proof.
  cbv zeta. unfold dlq_requeue.
  destruct (dlq_requeue_loop_taken limit (dlq s) 0 (queue_immediate s))
    as (taken & rest & Hd & H1 & H2 & H3 & H4).
  destruct (dlq_requeue_loop limit 0 (dlq s) (queue_immediate s)) as [[m d] q].
  simpl in *. subst d q. exists taken.
  split; [exact Hd|]. split; [reflexivity|].
  split; [rewrite Hd, app_assoc; reflexivity|].
  split; [lia|]. split; [exact H4|]. repeat split.
Qed.

(** X5. For a positive [limit], [dlq_list] reports the size of the
    dead-letter list and returns its last [min(limit, size)] entries, in
    their order (all of them when [limit >= size]). *)
Theorem dlq_list_returns_most_recent limit s :
  0 < limit ->
  let n := Z.of_nat (length (dlq s)) in
  (dlq_list limit s).1 = n /\
  (dlq_list limit s).2 = drop (Z.to_nat (n - limit)) (dlq s) /\
  Z.of_nat (length (dlq_list limit s).2) = Z.min limit n /\
  (n <= limit -> (dlq_list limit s).2 = dlq s).
Proof.
  intros Hl n. unfold dlq_list, slice_from. simpl. fold n.
  replace (- limit <? 0) with true by (symmetry; apply Z.ltb_lt; lia).
  assert (He : Z.to_nat (Z.max 0 (n + - limit)) = Z.to_nat (n - limit)) by lia.
  rewrite He. split; [reflexivity|]. split; [reflexivity|]. split.
  - rewrite length_drop. unfold n. lia.
  - intros Hn. replace (Z.to_nat (n - limit)) with 0%nat by lia. reflexivity.
Qed.

Lemma dlq_list_returns_most_recent_witness :
  (dlq_list 1 st_two_dead).1 = 2 /\
  (dlq_list 1 st_two_dead).2 = drop (Z.to_nat (2 - 1)) (dlq st_two_dead) /\
  Z.of_nat (length (dlq_list 1 st_two_dead).2) = Z.min 1 2 /\
  (2 <= 1 -> (dlq_list 1 st_two_dead).2 = dlq st_two_dead).
Proof. apply (dlq_list_returns_most_recent 1 st_two_dead). lia. Defined.

(** ** Job accounting *)

Lemma step_accounted e s s' :
  Inv s -> step e s = Some s' ->
  accounted s' - enqueued s' <= accounted s - enqueued s /\
  (is_cancel e = false -> accounted s' - enqueued s' = accounted s - enqueued s).
Proof.
  intros [Iw Ip Iq Id It] Hs. unfold accounted.
  pose proof (busy_count_bounds (worker_tasks s)) as Hb.
  destruct e as [c body request | i t u | i | i | i | t | limit | limit | i].
  - simpl in Hs. injection Hs as <-.
    destruct (enqueue_frame c body request s) as (F1 & _ & F3 & F4 & _).
    rewrite F1, F3, F4.
    destruct (enqueue_outcome c body request s) as [(_ & _ & -> & ->) | (_ & -> & -> & _)].
    + rewrite length_app. simpl. lia.
    + lia.
  - destruct (step_get_cases _ _ _ _ _ Hs) as (item & rest & _ & Hq & _ & -> & -> & Hc).
    rewrite Hq. simpl length.
    destruct Hc as [(_ & _ & _ & -> & -> & -> & _) | [(_ & _ & _ & -> & -> & -> & _)
                   | (_ & _ & -> & -> & -> & _)]];
      rewrite ?length_app; simpl; lia.
  - simpl in Hs. destruct (worker_tasks s !! i) as [[|item d| |]|] eqn:Hw; try discriminate.
    pose proof (busy_count_pos _ _ _ Hw eq_refl) as Hpos.
    unfold delayed_requeue_wake, put_nowait in Hs.
    destruct (full (queue_immediate s)); injection Hs as <-; simpl;
      rewrite ?length_app; simpl; lia.
  - simpl in Hs. destruct (worker_tasks s !! i) as [[| |item|]|] eqn:Hw; try discriminate.
    pose proof (busy_count_pos _ _ _ Hw eq_refl) as Hpos.
    unfold delayed_requeue_put, put_nowait in Hs.
    destruct (full (queue_immediate s)); [discriminate|].
    injection Hs as <-; simpl. rewrite length_app. simpl. lia.
  - simpl in Hs. destruct (worker_tasks s !! i) as [[| |item|]|] eqn:Hw; try discriminate.
    pose proof (busy_count_pos _ _ _ Hw eq_refl) as Hpos.
    injection Hs as <-; simpl. rewrite length_app. simpl. lia.
  - simpl in Hs. injection Hs as <-. simpl. lia.
  - simpl in Hs. injection Hs as <-. lia.
  - simpl in Hs. injection Hs as <-.
    destruct (dlq_requeue_effect limit s) as (taken & Hd & -> & -> & _ & -> & -> & _).
    apply (f_equal length) in Hd. rewrite length_app in Hd.
    rewrite length_app. lia.
  - simpl in Hs. destruct (worker_tasks s !! i) as [[|item d|item|]|] eqn:Hw;
      try discriminate; injection Hs as <-; simpl.
    + lia.
    + pose proof (busy_count_pos _ _ _ Hw eq_refl). split; [lia|discriminate].
    + pose proof (busy_count_pos _ _ _ Hw eq_refl). split; [lia|discriminate].
Qed.

Lemma run_accounted es : forall s s',
  Inv s -> run es s = Some s' ->
  accounted s' - enqueued s' <= accounted s - enqueued s /\
  (forallb (fun e => negb (is_cancel e)) es = true ->
   accounted s' - enqueued s' = accounted s - enqueued s).
Proof.
  induction es as [|e es IH]; intros s s' Hi Hr; simpl in Hr.
  - injection Hr as <-. split; [lia|reflexivity].
  - destruct (step e s) as [s1|] eqn:Hs; [|discriminate].
    destruct (step_accounted _ _ _ Hi Hs) as [A1 A2].
    destruct (IH _ _ (step_inv _ _ _ Hi Hs) Hr) as [B1 B2].
    split; [lia|]. simpl. intros Hf. apply andb_true_iff in Hf. destruct Hf as [Hf1 Hf2].
    apply negb_true_iff in Hf1. specialize (A2 Hf1). specialize (B2 Hf2). lia.
Qed.

(** X6. Job accounting.  After any schedule from the initial state the jobs
    completed, queued, dead-lettered and held by workers never outnumber the
    accepted submissions: no job is duplicated.  As long as no worker has
    been cancelled they are exactly as many: no job is lost. *)
Theorem jobs_are_accounted_for t0 es s :
  run es (init t0) = Some s ->
  accounted s <= enqueued s /\
  (forallb (fun e => negb (is_cancel e)) es = true -> accounted s = enqueued s).
Proof.
  intros Hr. destruct (run_accounted es _ _ (Inv_init t0) Hr) as [A B].
  unfold accounted in *. simpl in *. split; [lia|]. intros Hf. specialize (B Hf). lia.
Qed.

Lemma jobs_are_accounted_for_witness :
  accounted st_exhausted <= enqueued st_exhausted /\
  (forallb (fun e => negb (is_cancel e)) sched_exhaust = true ->
   accounted st_exhausted = enqueued st_exhausted).
Proof.
  apply (jobs_are_accounted_for 0%Q sched_exhaust st_exhausted).
  vm_compute. reflexivity.
Defined.

(** ** Sweeper *)

(** X7. One pass of the sweeper at time [t] removes exactly the records
    with [expires_at <= t] and keeps the others as they are; a lookup made at
    the sweep time or later gets the same answer as without the sweep, and
    nothing but the idempotency table changes: queue, dead-letter list,
    counters, both rate limiters and the worker tasks are as before. *)
Theorem sweep_removes_only_expired t s :
  (forall k,
      idempotency (idem_sweep t s) !! k =
      match idempotency s !! k with
      | Some rec => if Qle_bool (expires_at rec) t then None else Some rec
      | None => None
      end) /\
  (forall t' k, (t <= t')%Q ->
      idem_get_status t' k (idem_sweep t s) = idem_get_status t' k s) /\
  queue_immediate (idem_sweep t s) = queue_immediate s /\
  dlq (idem_sweep t s) = dlq s /\ enqueued (idem_sweep t s) = enqueued s /\
  processed (idem_sweep t s) = processed s /\ failures (idem_sweep t s) = failures s /\
  in_progress (idem_sweep t s) = in_progress s /\
  tokens (idem_sweep t s) = tokens s /\ last_refill (idem_sweep t s) = last_refill s /\
  client_buckets (idem_sweep t s) = client_buckets s /\
  worker_tasks (idem_sweep t s) = worker_tasks s.
Proof.
  split; [apply idem_sweep_lookup|]. split; [|repeat split].
  intros t' k Ht. unfold idem_get_status.
  destruct (String.eqb k ""); [reflexivity|].
  rewrite idem_sweep_lookup.
  destruct (idempotency s !! k) as [rec|]; [|reflexivity].
  destruct (Qle_bool (expires_at rec) t) eqn:E; [|reflexivity].
  apply Qle_bool_iff in E.
  assert (Hf : Qltb t' (expires_at rec) = false) by (apply Qltb_false; lra).
  rewrite Hf. reflexivity.
Qed.

Lemma sweep_removes_only_expired_witness :
  idem_get_status 700 "k1" (idem_sweep 650 st_accepted) =
  idem_get_status 700 "k1" st_accepted.
Proof.
  apply (sweep_removes_only_expired 650 st_accepted). vm_compute. discriminate.
Defined.

Lemma dlq_requeue_moves_prefix_frame limit s :
  tokens (dlq_requeue limit s).1 = tokens s /\
  client_buckets (dlq_requeue limit s).1 = client_buckets s.
Proof.
  unfold dlq_requeue.
  destruct (dlq_requeue_loop limit 0 (dlq s) (queue_immediate s)) as [[m d] q].
  split; reflexivity.
Qed.

(** ** Rate limiter state *)

Lemma py_max_nonneg a : (0 <= py_max 0 a)%Q.
Proof.
  unfold py_max. destruct (Qltb 0 a) eqn:E; [|lra].
  apply Qltb_true in E. lra.
Qed.

Lemma py_max_ge a : (a <= py_max 0 a)%Q.
Proof.
  unfold py_max. destruct (Qltb 0 a) eqn:E; [lra|].
  apply Qltb_false in E. exact E.
Qed.

Lemma py_min_glb a b c : (c <= a)%Q -> (c <= b)%Q -> (c <= py_min a b)%Q.
Proof. intros Ha Hb. unfold py_min. destruct (Qltb b a); assumption. Qed.

(** A bucket access keeps the level between 0 and the capacity. *)
Lemma bucket_consume_bounds cap rate t n tk last :
  (0 <= cap)%Q -> (0 <= rate)%Q -> (0 <= n)%Q -> (0 <= tk)%Q ->
  (0 <= (bucket_consume cap rate t n tk last).1.1)%Q /\
  ((bucket_consume cap rate t n tk last).1.1 <= cap)%Q.
Proof.
  intros Hc Hr Hn Ht. split; [|apply bucket_consume_le_cap; exact Hn].
  unfold bucket_consume.
  assert (H0 : (0 <= py_min cap (tk + py_max 0 (t - last) * rate))%Q).
  { apply py_min_glb; [exact Hc|].
    pose proof (Qmult_le_0_compat _ _ (py_max_nonneg (t - last)) Hr). lra. }
  destruct (Qgeb _ n) eqn:E; simpl; [|exact H0].
  apply Qgeb_true in E. lra.
Qed.

(** A unit-cost access succeeds once enough time has passed to refill one
    token. *)
Lemma bucket_consume_after_wait cap rate t tk last :
  (1 <= cap)%Q -> (0 <= rate)%Q -> (0 <= tk)%Q -> (1 <= (t - last) * rate)%Q ->
  (bucket_consume cap rate t 1 tk last).2 = true.
Proof.
  intros Hc Hr Ht Hw. unfold bucket_consume.
  assert (H1 : (1 <= py_min cap (tk + py_max 0 (t - last) * rate))%Q).
  { apply py_min_glb; [exact Hc|].
    pose proof (Qmult_le_compat_r _ _ rate (py_max_ge (t - last)) Hr). lra. }
  apply Qgeb_true in H1. rewrite H1. reflexivity.
Qed.

(** The rate limiter fields after [enqueue]. *)
Lemma enqueue_buckets c body request s :
  let g := rl_consume (t_global c) 1 s in
  let cl := rl_consume_client (t_client c) (client_id_of request) 1 g.1 in
  let res := enqueue c body request s in
  tokens res.1 = tokens g.1 /\ last_refill res.1 = last_refill g.1 /\
  (g.2 = false /\ client_buckets res.1 = client_buckets s \/
   g.2 = true /\ client_buckets res.1 = client_buckets cl.1).
Proof.
  pose proof (enqueue_spec c body request s) as H. cbv zeta in H. cbv zeta.
  pose proof (rl_consume_client_frame (t_client c) (client_id_of request) 1
                (rl_consume (t_global c) 1 s).1) as Fc.
  cbv zeta in Fc. destruct Fc as (_ & _ & _ & Ct & Cl & _).
  destruct ((rl_consume (t_global c) 1 s).2) eqn:Eg; simpl in H.
  2:{ destruct H as (-> & _ & Hb). simpl. auto. }
  destruct (negb _).
  { destruct H as (-> & _). simpl. auto. }
  destruct (if truthy (idem_key_of request) then _ else None).
  { destruct H as (-> & _). simpl. auto. }
  destruct (full (queue_immediate s)).
  { destruct H as (-> & _). simpl. auto. }
  destruct H as (_ & _ & _ & _ & Ht & Hl & Hb). rewrite Ht, Hl, Hb. auto.
Qed.

(** X8. Clients are isolated from each other: [rl_consume_client] for one
    client, and a whole [enqueue] of that client, leave the bucket of every
    other client as it was (present or absent); [rl_consume_client] also
    leaves the global bucket untouched. *)
Theorem client_buckets_are_isolated :
  (forall t a b n s,
      a <> b ->
      client_buckets (rl_consume_client t a n s).1 !! b = client_buckets s !! b /\
      tokens (rl_consume_client t a n s).1 = tokens s /\
      last_refill (rl_consume_client t a n s).1 = last_refill s) /\
  (forall c body request s b,
      client_id_of request <> b ->
      client_buckets (enqueue c body request s).1 !! b = client_buckets s !! b).
Proof.
  assert (Hiso : forall t a b n s, a <> b ->
            client_buckets (rl_consume_client t a n s).1 !! b = client_buckets s !! b).
  { intros t a b n s Hab. unfold rl_consume_client.
    destruct (bucket_consume _ _ t n _ _) as [[tk lr] ok]. simpl.
    apply lookup_insert_ne. exact Hab. }
  split.
  - intros t a b n s Hab. split; [apply Hiso; exact Hab|].
    destruct (rl_consume_client_frame t a n s) as (_ & _ & _ & Ht & Hl & _). auto.
  - intros c body request s b Hab.
    destruct (enqueue_buckets c body request s) as (_ & _ & [[_ ->] | [_ ->]]);
      [reflexivity|].
    rewrite (Hiso _ _ _ _ _ Hab).
    destruct (rl_consume_frame (t_global c) 1 s) as (_ & _ & _ & -> & _). reflexivity.
Qed.

Lemma client_buckets_are_isolated_witness :
  client_buckets (enqueue (clock_at 1) body_plain (mkRequest (Some "bob") None None None)
                    st_accepted).1 !! "alice" =
  client_buckets st_accepted !! "alice".
Proof.
  apply (proj2 client_buckets_are_isolated). vm_compute. discriminate.
Defined.

Lemma step_tokens_ok e s s' : tokens_ok s -> step e s = Some s' -> tokens_ok s'.
Proof.
  intros (T0 & T1 & Tb) Hs.
  assert (Hsame : tokens s' = tokens s -> client_buckets s' = client_buckets s ->
                  tokens_ok s').
  { intros Ht Hb. unfold tokens_ok. rewrite Ht, Hb. auto. }
  destruct e as [c body request | i t u | i | i | i | t | limit | limit | i].
  - simpl in Hs. injection Hs as <-.
    destruct (enqueue_buckets c body request s) as (Ht & _ & Hb).
    assert (Hg : (0 <= tokens (rl_consume (t_global c) 1 s).1)%Q /\
                 (tokens (rl_consume (t_global c) 1 s).1 <= RATE_CAPACITY)%Q).
    { unfold rl_consume.
      pose proof (bucket_consume_bounds RATE_CAPACITY RATE_REFILL_PER_SEC (t_global c) 1
                    (tokens s) (last_refill s)) as B.
      destruct (bucket_consume _ _ (t_global c) 1 _ _) as [[tk lr] ok]. simpl in *.
      apply B; try assumption; unfold RATE_CAPACITY, RATE_REFILL_PER_SEC; lra. }
    unfold tokens_ok. rewrite Ht. destruct Hg as [G0 G1].
    split; [exact G0|]. split; [exact G1|].
    destruct Hb as [[_ ->] | [_ ->]]; [exact Tb|].
    destruct (rl_consume_frame (t_global c) 1 s) as (_ & _ & _ & Hcb & _).
    unfold rl_consume_client. rewrite Hcb.
    pose proof (bucket_consume_bounds CLIENT_RATE_CAPACITY CLIENT_RATE_REFILL_PER_SEC
                  (t_client c) 1) as B.
    destruct (client_buckets s !! client_id_of request) as [b|] eqn:El.
    + specialize (B (b_tokens b) (b_last b)).
      destruct (bucket_consume _ _ (t_client c) 1 _ _) as [[tk lr] ok]. simpl in *.
      apply map_Forall_insert_2; [|exact Tb].
      destruct (Tb _ _ El) as [B0 B1].
      apply B; try assumption;
        unfold CLIENT_RATE_CAPACITY, CLIENT_RATE_REFILL_PER_SEC; lra.
    + specialize (B CLIENT_RATE_CAPACITY (t_client c)).
      simpl b_tokens. simpl b_last.
      destruct (bucket_consume _ _ (t_client c) 1 _ _) as [[tk lr] ok]. simpl in *.
      apply map_Forall_insert_2; [|exact Tb].
      apply B; unfold CLIENT_RATE_CAPACITY, CLIENT_RATE_REFILL_PER_SEC; lra.
  - apply Hsame; simpl in Hs;
      destruct (worker_tasks s !! i) as [[| | |]|]; try discriminate;
      destruct (queue_immediate s) as [|item rest]; try discriminate;
      destruct (jitter_ok u); try discriminate;
      unfold process_job in Hs;
      destruct (attempt item <? fail_times item);
      [destruct (attempt item + 1 <? MAX_ATTEMPTS)| |
       destruct (attempt item + 1 <? MAX_ATTEMPTS)| ];
      try (injection Hs as <-; reflexivity);
      destruct (truthy (idempotency_key item)); try (injection Hs as <-; reflexivity);
      unfold idem_set_completed in Hs;
      destruct (String.eqb _ ""); try (injection Hs as <-; reflexivity);
      simpl in Hs; destruct (idempotency s !! _); injection Hs as <-; reflexivity.
  - apply Hsame; simpl in Hs;
      destruct (worker_tasks s !! i) as [[|item d| |]|]; try discriminate;
      unfold delayed_requeue_wake, put_nowait in Hs;
      destruct (full (queue_immediate s)); injection Hs as <-; reflexivity.
  - apply Hsame; simpl in Hs;
      destruct (worker_tasks s !! i) as [[| |item|]|]; try discriminate;
      unfold delayed_requeue_put, put_nowait in Hs;
      destruct (full (queue_immediate s)); try discriminate;
      injection Hs as <-; reflexivity.
  - apply Hsame; simpl in Hs;
      destruct (worker_tasks s !! i) as [[| |item|]|]; try discriminate;
      injection Hs as <-; reflexivity.
  - apply Hsame; simpl in Hs; injection Hs as <-; reflexivity.
  - apply Hsame; simpl in Hs; injection Hs as <-; reflexivity.
  - simpl in Hs. injection Hs as <-.
    destruct (dlq_requeue_moves_prefix_frame limit s) as [Ht Hb].
    apply Hsame; assumption.
  - apply Hsame; simpl in Hs;
      destruct (worker_tasks s !! i) as [[|item d|item|]|]; try discriminate;
      injection Hs as <-; reflexivity.
Qed.

Lemma tokens_ok_init t0 : tokens_ok (init t0).
Proof.
  unfold tokens_ok. simpl. unfold RATE_CAPACITY.
  split; [lra|]. split; [lra|]. apply map_Forall_empty.
Qed.

Lemma token_levels_ok_of_reachable s : reachable s -> tokens_ok s.
Proof.
  revert s. apply reachable_preserves; [apply tokens_ok_init | apply step_tokens_ok].
Qed.

(** X9. In every reachable state the global bucket holds between 0 and
    [RATE_CAPACITY] tokens and every client bucket between 0 and
    [CLIENT_RATE_CAPACITY]: a level never goes negative and never exceeds its
    capacity, whatever the clock readings were (also when the clock steps
    back). *)
Theorem token_levels_stay_in_range s :
  reachable s ->
  (0 <= tokens s)%Q /\ (tokens s <= RATE_CAPACITY)%Q /\
  forall client_id b,
    client_buckets s !! client_id = Some b ->
    (0 <= b_tokens b)%Q /\ (b_tokens b <= CLIENT_RATE_CAPACITY)%Q.
Proof.
  intros Hr.
  destruct (token_levels_ok_of_reachable s Hr) as (H0 & H1 & Hb). split; [exact H0|]. split; [exact H1|].
  intros client_id b Hl. exact (Hb _ _ Hl).
Qed.

Lemma token_levels_stay_in_range_witness :
  (0 <= tokens st_accepted)%Q /\ (tokens st_accepted <= RATE_CAPACITY)%Q /\
  forall client_id b,
    client_buckets st_accepted !! client_id = Some b ->
    (0 <= b_tokens b)%Q /\ (b_tokens b <= CLIENT_RATE_CAPACITY)%Q.
Proof.
  apply token_levels_stay_in_range.
  exists 0%Q, [EvEnqueue (clock_at 0) body_plain req_k1]. reflexivity.
Defined.

(** X10. The limiters recover: in a reachable state a request arriving at
    least 1/25 s after the last access of the global bucket passes
    [rl_consume], and one arriving at least 1/5 s after the client's last
    access, or from a client without a bucket, passes [rl_consume_client]. *)
Theorem limiters_recover_after_wait s t client_id :
  reachable s ->
  ((last_refill s + (1 # 25) <= t)%Q -> (rl_consume t 1 s).2 = true) /\
  ((forall b, client_buckets s !! client_id = Some b -> (b_last b + (1 # 5) <= t)%Q) ->
   (rl_consume_client t client_id 1 s).2 = true).
Proof.
  intros Hr. destruct (token_levels_ok_of_reachable s Hr) as (H0 & H1 & Hb). split.
  - intros Ht. unfold rl_consume.
    pose proof (bucket_consume_after_wait RATE_CAPACITY RATE_REFILL_PER_SEC t
                  (tokens s) (last_refill s)) as B.
    destruct (bucket_consume _ _ t 1 _ _) as [[tk lr] ok]. simpl in *.
    apply B; try assumption; unfold RATE_CAPACITY, RATE_REFILL_PER_SEC; lra.
  - intros Ht. unfold rl_consume_client.
    destruct (client_buckets s !! client_id) as [b|] eqn:El.
    + pose proof (bucket_consume_after_wait CLIENT_RATE_CAPACITY CLIENT_RATE_REFILL_PER_SEC
                    t (b_tokens b) (b_last b)) as B.
      destruct (bucket_consume _ _ t 1 _ _) as [[tk lr] ok]. simpl in *.
      destruct (Hb _ _ El) as [B0 B1]. specialize (Ht b eq_refl).
      apply B; try assumption;
        unfold CLIENT_RATE_CAPACITY, CLIENT_RATE_REFILL_PER_SEC; lra.
    + simpl. unfold bucket_consume.
      assert (H : (1 <= py_min CLIENT_RATE_CAPACITY
                         (CLIENT_RATE_CAPACITY +
                          py_max 0 (t - t) * CLIENT_RATE_REFILL_PER_SEC))%Q).
      { apply py_min_glb; [unfold CLIENT_RATE_CAPACITY; lra|].
        pose proof (py_max_nonneg (t - t)) as Hp.
        unfold CLIENT_RATE_CAPACITY, CLIENT_RATE_REFILL_PER_SEC. lra. }
      apply Qgeb_true in H. rewrite H. reflexivity.
Qed.

Lemma limiters_recover_after_wait_witness :
  (rl_consume 1 1 st_accepted).2 = true /\
  (rl_consume_client 1 "alice" 1 st_accepted).2 = true.
Proof.
  assert (Hr : reachable st_accepted).
  { exists 0%Q, [EvEnqueue (clock_at 0) body_plain req_k1]. reflexivity. }
  destruct (limiters_recover_after_wait st_accepted 1 "alice" Hr) as [HA HB]. split.
  - apply HA. vm_compute. discriminate.
  - apply HB. intros b Hb. vm_compute in Hb. injection Hb as <-.
    vm_compute. discriminate.
Defined.

(** ** A job from admission to its terminal state *)

Lemma run_app es1 es2 s :
  run (es1 ++ es2) s = match run es1 s with Some s1 => run es2 s1 | None => None end.
Proof.
  revert s. induction es1 as [|e es1 IH]; intros s; simpl; [reflexivity|].
  destruct (step e s); [apply IH | reflexivity].
Qed.

Lemma run_cons e es s :
  run (e :: es) s = match step e s with Some s1 => run es s1 | None => None end.
Proof. reflexivity. Qed.

Lemma step_get_enabled i t u s item rest :
  worker_tasks s !! i = Some WIdle -> queue_immediate s = item :: rest ->
  jitter_ok u = true -> exists s', step (EvGet i t u) s = Some s'.
Proof.
  intros Hw Hq Hu. simpl. rewrite Hw, Hq, Hu.
  destruct (process_job t u item (set_queue rest s)) as [s1 [[it d]|]]; eauto.
Qed.

(** One failed execution followed by the end of its backoff sleep, with a
    single job in the system: the job is back in the queue with one more
    attempt recorded, and the worker is idle again. *)
Lemma retry_round i t u j s :
  worker_tasks s !! i = Some WIdle -> queue_immediate s = [j] ->
  jitter_ok u = true -> 0 <= in_progress s ->
  attempt j < fail_times j -> attempt j + 1 < MAX_ATTEMPTS ->
  exists s2,
    run [EvGet i t u; EvTimer i] s = Some s2 /\
    worker_tasks s2 = worker_tasks s /\
    queue_immediate s2 = [set_attempt (attempt j + 1) j] /\
    failures s2 = failures s + 1 /\ processed s2 = processed s /\
    dlq s2 = dlq s /\ enqueued s2 = enqueued s /\ in_progress s2 = in_progress s.
Proof.
  intros Hw Hq Hu Hp Hf Hn.
  destruct (step_get_enabled i t u s j [] Hw Hq Hu) as [s1 Hs1].
  destruct (step_get_cases _ _ _ _ _ Hs1)
    as (item & rest & _ & Hq' & _ & Hq1 & He & Hc).
  rewrite Hq in Hq'. injection Hq' as <- <-.
  destruct Hc as [(_ & _ & W & P & D & Pr & F) | [(_ & B & _) | (B & _)]]; try lia.
  rewrite run_cons, Hs1, run_cons. cbn [step run]. rewrite W.
  rewrite list_lookup_insert_eq by (eapply lookup_lt_Some; exact Hw).
  unfold delayed_requeue_wake, put_nowait. rewrite Hq1.
  change (full []) with false. cbv iota.
  eexists. split; [reflexivity|]. simpl.
  rewrite W, list_insert_insert_eq, (list_insert_id _ _ _ Hw), P, D, Pr, F, He.
  repeat split. lia.
Qed.

(** The last execution of a job that now succeeds. *)
Lemma final_success i t u j s :
  worker_tasks s !! i = Some WIdle -> queue_immediate s = [j] ->
  jitter_ok u = true -> 0 <= in_progress s -> fail_times j <= attempt j ->
  exists s',
    run [EvGet i t u] s = Some s' /\
    worker_tasks s' = worker_tasks s /\ queue_immediate s' = [] /\
    failures s' = failures s /\ processed s' = processed s + 1 /\
    dlq s' = dlq s /\ enqueued s' = enqueued s /\ in_progress s' = in_progress s.
Proof.
  intros Hw Hq Hu Hp Hf.
  destruct (step_get_enabled i t u s j [] Hw Hq Hu) as [s1 Hs1].
  destruct (step_get_cases _ _ _ _ _ Hs1)
    as (item & rest & _ & Hq' & _ & Hq1 & He & Hc).
  rewrite Hq in Hq'. injection Hq' as <- <-.
  destruct Hc as [(B & _) | [(B & _) | (_ & W & P & D & Pr & F)]]; try lia.
  exists s1. rewrite run_cons, Hs1. repeat split; try assumption. lia.
Qed.

(** The last execution of a job whose retry budget is used up. *)
Lemma final_dead_letter i t u j s :
  worker_tasks s !! i = Some WIdle -> queue_immediate s = [j] ->
  jitter_ok u = true -> 0 <= in_progress s ->
  attempt j < fail_times j -> MAX_ATTEMPTS <= attempt j + 1 ->
  exists s',
    run [EvGet i t u] s = Some s' /\
    worker_tasks s' = worker_tasks s /\ queue_immediate s' = [] /\
    failures s' = failures s + 1 /\ processed s' = processed s /\
    dlq s' = dlq s ++ [j] /\ enqueued s' = enqueued s /\ in_progress s' = in_progress s.
Proof.
  intros Hw Hq Hu Hp Hf Hn.
  destruct (step_get_enabled i t u s j [] Hw Hq Hu) as [s1 Hs1].
  destruct (step_get_cases _ _ _ _ _ Hs1)
    as (item & rest & _ & Hq' & _ & Hq1 & He & Hc).
  rewrite Hq in Hq'. injection Hq' as <- <-.
  destruct Hc as [(_ & B & _) | [(_ & _ & W & P & D & Pr & F) | (B & _)]]; try lia.
  exists s1. rewrite run_cons, Hs1. repeat split; try assumption. lia.
Qed.

Lemma retry_rounds_run n i t u : forall j s,
  worker_tasks s !! i = Some WIdle -> queue_immediate s = [j] ->
  jitter_ok u = true -> 0 <= in_progress s ->
  attempt j + Z.of_nat n <= fail_times j -> attempt j + Z.of_nat n < MAX_ATTEMPTS ->
  exists s2,
    run (retry_rounds n i t u) s = Some s2 /\
    worker_tasks s2 = worker_tasks s /\
    queue_immediate s2 = [set_attempt (attempt j + Z.of_nat n) j] /\
    failures s2 = failures s + Z.of_nat n /\ processed s2 = processed s /\
    dlq s2 = dlq s /\ enqueued s2 = enqueued s /\ in_progress s2 = in_progress s.
Proof.
  induction n as [|n IH]; intros j s Hw Hq Hu Hp Hf Hn.
  - exists s. simpl. rewrite !Z.add_0_r, set_attempt_same. auto 10.
  - destruct (retry_round i t u j s Hw Hq Hu Hp) as (s1 & R1 & W1 & Q1 & F1 & P1 & D1 & E1 & I1);
      [lia | lia |].
    assert (Hw1 : worker_tasks s1 !! i = Some WIdle) by congruence.
    assert (Hp1 : 0 <= in_progress s1) by lia.
    assert (Hf1 : attempt (set_attempt (attempt j + 1) j) + Z.of_nat n
                  <= fail_times (set_attempt (attempt j + 1) j)) by (simpl; lia).
    assert (Hn1 : attempt (set_attempt (attempt j + 1) j) + Z.of_nat n < MAX_ATTEMPTS)
      by (simpl; lia).
    destruct (IH (set_attempt (attempt j + 1) j) s1 Hw1 Q1 Hu Hp1 Hf1 Hn1)
      as (s2 & R2 & W2 & Q2 & F2 & P2 & D2 & E2 & I2).
    exists s2. split.
    + change (retry_rounds (S n) i t u)
        with ([EvGet i t u; EvTimer i] ++ retry_rounds n i t u).
      rewrite run_app, R1. exact R2.
    + rewrite W2, Q2, F2, P2, D2, E2, I2, W1, F1, P1, D1, E1, I1. simpl.
      replace (attempt j + 1 + Z.of_nat n) with (attempt j + Z.of_nat (S n)) by lia.
      repeat split. lia.
Qed.

(** X11. A job whose first [fail_times] executions fail, with
    [fail_times < MAX_ATTEMPTS], is completed exactly once: run alone by one
    worker (each failed execution followed by the end of its backoff sleep) it
    ends with [processed] one higher, [failures] higher by the remaining
    failures, nothing dead-lettered, the queue empty and the worker idle
    again with [in_progress] restored. *)
Theorem transient_failures_end_in_success i t u j s :
  worker_tasks s !! i = Some WIdle -> queue_immediate s = [j] ->
  jitter_ok u = true -> 0 <= in_progress s ->
  attempt j <= fail_times j -> fail_times j < MAX_ATTEMPTS ->
  exists s',
    run (until_done (Z.to_nat (fail_times j - attempt j)) i t u) s = Some s' /\
    processed s' = processed s + 1 /\
    failures s' = failures s + (fail_times j - attempt j) /\
    dlq s' = dlq s /\ queue_immediate s' = [] /\
    worker_tasks s' = worker_tasks s /\ in_progress s' = in_progress s /\
    enqueued s' = enqueued s.
Proof.
  intros Hw Hq Hu Hp Ha Hf.
  set (n := Z.to_nat (fail_times j - attempt j)).
  assert (Hn : Z.of_nat n = fail_times j - attempt j) by (unfold n; lia).
  destruct (retry_rounds_run n i t u j s Hw Hq Hu Hp)
    as (s1 & R1 & W1 & Q1 & F1 & P1 & D1 & E1 & I1); [lia | lia |].
  destruct (final_success i t u (set_attempt (attempt j + Z.of_nat n) j) s1)
    as (s2 & R2 & W2 & Q2 & F2 & P2 & D2 & E2 & I2);
    [congruence | exact Q1 | exact Hu | lia | simpl; lia |].
  exists s2. unfold until_done. rewrite run_app, R1.
  split; [exact R2|]. rewrite P2, F2, D2, W2, I2, E2, P1, F1, D1, W1, I1, E1, Hn.
  repeat split. exact Q2.
Qed.

Lemma transient_failures_end_in_success_witness :
  exists s',
    run (until_done (Z.to_nat (2 - 0)) 0 5 0) (st_submitted 2) = Some s' /\
    processed s' = processed (st_submitted 2) + 1 /\
    failures s' = failures (st_submitted 2) + (2 - 0) /\
    dlq s' = dlq (st_submitted 2) /\ queue_immediate s' = [] /\
    worker_tasks s' = worker_tasks (st_submitted 2) /\
    in_progress s' = in_progress (st_submitted 2) /\
    enqueued s' = enqueued (st_submitted 2).
Proof.
  apply (transient_failures_end_in_success 0%nat 5%Q 0%Q (mkJob [] 2 0 None)
           (st_submitted 2));
    [reflexivity | reflexivity | reflexivity
     | vm_compute; discriminate | vm_compute; discriminate | reflexivity].
Defined.

(** X12. A job that keeps failing is dead-lettered exactly once, after
    [MAX_ATTEMPTS - attempt] failed executions: run alone by one worker it
    ends in the dead-letter list with [attempt = MAX_ATTEMPTS - 1], with
    [processed] unchanged, the queue empty and the worker idle again. *)
Theorem persistent_failure_ends_dead_lettered i t u j s :
  worker_tasks s !! i = Some WIdle -> queue_immediate s = [j] ->
  jitter_ok u = true -> 0 <= in_progress s ->
  0 <= attempt j < MAX_ATTEMPTS -> MAX_ATTEMPTS <= fail_times j ->
  exists s',
    run (until_done (Z.to_nat (MAX_ATTEMPTS - 1 - attempt j)) i t u) s = Some s' /\
    dlq s' = dlq s ++ [set_attempt (MAX_ATTEMPTS - 1) j] /\
    failures s' = failures s + (MAX_ATTEMPTS - attempt j) /\
    processed s' = processed s /\ queue_immediate s' = [] /\
    worker_tasks s' = worker_tasks s /\ in_progress s' = in_progress s /\
    enqueued s' = enqueued s.
Proof.
  intros Hw Hq Hu Hp Ha Hf.
  set (n := Z.to_nat (MAX_ATTEMPTS - 1 - attempt j)).
  assert (Hn : Z.of_nat n = MAX_ATTEMPTS - 1 - attempt j) by (unfold n; lia).
  destruct (retry_rounds_run n i t u j s Hw Hq Hu Hp)
    as (s1 & R1 & W1 & Q1 & F1 & P1 & D1 & E1 & I1); [lia | lia |].
  destruct (final_dead_letter i t u (set_attempt (attempt j + Z.of_nat n) j) s1)
    as (s2 & R2 & W2 & Q2 & F2 & P2 & D2 & E2 & I2);
    [congruence | exact Q1 | exact Hu | lia | simpl; lia | simpl; lia |].
  exists s2. unfold until_done. rewrite run_app, R1.
  split; [exact R2|]. rewrite P2, F2, D2, W2, I2, E2, P1, F1, D1, W1, I1, E1.
  replace (attempt j + Z.of_nat n) with (MAX_ATTEMPTS - 1) by lia.
  repeat split; [lia | exact Q2].
Qed.

Lemma persistent_failure_ends_dead_lettered_witness :
  exists s',
    run (until_done (Z.to_nat (MAX_ATTEMPTS - 1 - 0)) 0 5 0) (st_submitted 7) = Some s' /\
    dlq s' = dlq (st_submitted 7) ++ [set_attempt (MAX_ATTEMPTS - 1) (mkJob [] 7 0 None)] /\
    failures s' = failures (st_submitted 7) + (MAX_ATTEMPTS - 0) /\
    processed s' = processed (st_submitted 7) /\ queue_immediate s' = [] /\
    worker_tasks s' = worker_tasks (st_submitted 7) /\
    in_progress s' = in_progress (st_submitted 7) /\
    enqueued s' = enqueued (st_submitted 7).
Proof.
  apply (persistent_failure_ends_dead_lettered 0%nat 5%Q 0%Q (mkJob [] 7 0 None)
           (st_submitted 7));
    [reflexivity | reflexivity | reflexivity
     | vm_compute; discriminate
     | split; [vm_compute; discriminate | reflexivity]
     | vm_compute; discriminate].
Defined.

(** ** Observability *)

(** X13. The figures of [GET /stats] are consistent after any schedule from
    the initial state: the queue depth is within the queue capacity,
    [in_progress] within the number of workers, the jobs reported as
    processed, queued, dead-lettered and in progress do not outnumber those
    reported as enqueued, and the global token level is within its bucket. *)
Theorem stats_are_consistent t0 es s :
  run es (init t0) = Some s ->
  let r := stats s in
  0 <= queue_depth r <= queue_max r /\
  0 <= stats_in_progress r <= workers r /\
  0 <= stats_dlq r /\
  stats_processed r + queue_depth r + stats_dlq r + stats_in_progress r
    <= stats_enqueued r /\
  (0 <= rate_tokens r)%Q /\ (rate_tokens r <= RATE_CAPACITY)%Q.
Proof.
  intros Hr. simpl.
  assert (Hreach : reachable s) by (exists t0, es; exact Hr).
  destruct (reachable_inv s Hreach) as [Iw Ip _ _ _].
  pose proof (busy_count_bounds (worker_tasks s)) as Hb. rewrite Iw in Hb.
  assert (Hq : Z.of_nat (length (queue_immediate s)) <= Q_MAX).
  { revert s Hreach Hr Iw Ip Hb.
    intros s Hreach _ _ _ _. revert s Hreach.
    apply (reachable_preserves (fun s => Z.of_nat (length (queue_immediate s)) <= Q_MAX));
      [intros; simpl; unfold Q_MAX; lia | apply step_queue_bound]. }
  destruct (run_accounted es _ _ (Inv_init t0) Hr) as [Ha _].
  unfold accounted in Ha. simpl in Ha.
  destruct (token_levels_ok_of_reachable s Hreach) as (T0 & T1 & _).
  repeat split; try assumption; lia.
Qed.

Lemma stats_are_consistent_witness :
  let r := stats st_exhausted in
  0 <= queue_depth r <= queue_max r /\
  0 <= stats_in_progress r <= workers r /\
  0 <= stats_dlq r /\
  stats_processed r + queue_depth r + stats_dlq r + stats_in_progress r
    <= stats_enqueued r /\
  (0 <= rate_tokens r)%Q /\ (rate_tokens r <= RATE_CAPACITY)%Q.
Proof.
  apply (stats_are_consistent 0%Q sched_exhaust st_exhausted). vm_compute. reflexivity.
Defined.

(** ** Submissions without a usable key; what a rejection costs *)

(** X14. A submission whose idempotency headers are absent or empty is
    unkeyed: an empty [X-Idempotency-Key] falls back to [Idempotency-Key];
    without a non-empty key [enqueue] leaves the idempotency table as it is,
    never answers as a duplicate, builds an item without a key and, when it
    accepts, answers with [idempotent = false]. *)
Theorem unkeyed_submission_bypasses_idempotency :
  (forall request,
      truthy (hdr_x_idempotency_key request) = false ->
      idem_key_of request = hdr_idempotency_key request) /\
  (forall c body request s,
      truthy (idem_key_of request) = false ->
      let res := enqueue c body request s in
      idempotency res.1 = idempotency s /\
      is_duplicate res.2 = false /\
      idempotency_key (item_of body request) = None /\
      (is_enqueued res.2 = true -> res.2 = inr (mkResp st_enqueued false))).
Proof.
  split.
  - intros request H. unfold idem_key_of, py_or. rewrite H. reflexivity.
  - intros c body request s Hk. cbv zeta.
    pose proof (enqueue_spec c body request s) as H. cbv zeta in H.
    rewrite Hk in H. unfold item_of. rewrite Hk.
    destruct (negb _).
    { destruct H as (-> & (_ & Hi & _) & _). simpl. repeat split; try assumption.
      discriminate. }
    destruct (negb _).
    { destruct H as (-> & (_ & Hi & _)). simpl. repeat split; try assumption.
      discriminate. }
    destruct (full (queue_immediate s)).
    { destruct H as (-> & (_ & Hi & _)). simpl. repeat split; try assumption.
      discriminate. }
    destruct H as (Hr & _ & Hi & _). rewrite Hr. simpl. auto.
Qed.

Lemma unkeyed_submission_bypasses_idempotency_witness :
  idem_key_of (mkRequest None None (Some "") (Some "k2")) = Some "k2" /\
  idempotency (enqueue (clock_at 1) body_plain
                 (mkRequest (Some "alice") None (Some "") None) st_accepted).1 =
    idempotency st_accepted.
Proof.
  destruct unkeyed_submission_bypasses_idempotency as [HA HB]. split.
  - apply (HA (mkRequest None None (Some "") (Some "k2"))). reflexivity.
  - apply (HB (clock_at 1) body_plain (mkRequest (Some "alice") None (Some "") None)
              st_accepted).
    reflexivity.
Defined.

(** X15. Rate-limit tokens are spent before the later checks and are not
    given back: whenever the global bucket admits a request, [enqueue] leaves
    it one token below its refilled level, whatever the final answer
    (client-limited, duplicate, queue full or enqueued); only a request the
    global bucket itself refuses leaves the refilled level untouched. *)
Theorem admitted_by_global_bucket_is_charged c body request s :
  let r := Qmin RATE_CAPACITY
             (tokens s + Qmax 0 (t_global c - last_refill s) * RATE_REFILL_PER_SEC) in
  let res := enqueue c body request s in
  last_refill res.1 = t_global c /\
  (if (rl_consume (t_global c) 1 s).2
   then tokens res.1 == r - 1
   else tokens res.1 == r /\ res.2 = inl rate_limited)%Q.
Proof.
  cbv zeta.
  destruct (enqueue_buckets c body request s) as (Ht & Hl & _).
  rewrite Ht, Hl.
  pose proof (enqueue_spec c body request s) as H. cbv zeta in H.
  unfold rl_consume in *.
  pose proof (bucket_consume_spec RATE_CAPACITY RATE_REFILL_PER_SEC (t_global c) 1
                (tokens s) (last_refill s)) as B.
  destruct (bucket_consume _ _ (t_global c) 1 _ _) as [[tk lr] ok]. simpl in *.
  destruct B as (Bl & _ & Bt). split; [exact Bl|].
  destruct ok; simpl in *; [exact Bt|].
  destruct H as (-> & _). split; [exact Bt | reflexivity].
Qed.

(** ** Shutdown *)

Lemma cancel_worker_effect i s :
  Inv s -> (i < length (worker_tasks s))%nat ->
  let s' := cancel_worker i s in
  Inv s' /\
  worker_tasks s' = <[i := WCancelled]> (worker_tasks s) /\
  queue_immediate s' = queue_immediate s /\ dlq s' = dlq s /\
  processed s' = processed s /\ failures s' = failures s /\
  enqueued s' = enqueued s /\ idempotency s' = idempotency s.
Proof.
  intros Hi Hlt. cbv zeta. unfold cancel_worker.
  destruct (step (EvCancel i) s) as [s'|] eqn:Hs.
  - split; [eapply step_inv; eassumption|].
    simpl in Hs. destruct (worker_tasks s !! i) as [[|item d|item|]|]; try discriminate;
      injection Hs as <-; simpl; auto 10.
  - split; [exact Hi|].
    destruct (lookup_lt_is_Some_2 _ _ Hlt) as [w Hw].
    simpl in Hs. rewrite Hw in Hs. destruct w; try discriminate.
    rewrite (list_insert_id _ _ _ Hw). auto 10.
Qed.

Lemma cancel_upto_effect n : forall s,
  Inv s -> (n <= length (worker_tasks s))%nat ->
  let s' := cancel_upto n s in
  Inv s' /\
  worker_tasks s' = replicate n WCancelled ++ drop n (worker_tasks s) /\
  queue_immediate s' = queue_immediate s /\ dlq s' = dlq s /\
  processed s' = processed s /\ failures s' = failures s /\
  enqueued s' = enqueued s /\ idempotency s' = idempotency s.
Proof.
  induction n as [|n IH]; intros s Hi Hn; cbv zeta.
  - simpl. rewrite drop_0. auto 10.
  - destruct (IH s Hi) as (I1 & W1 & Q1 & D1 & P1 & F1 & E1 & M1); [lia|].
    assert (Hlen : length (worker_tasks (cancel_upto n s)) = length (worker_tasks s)).
    { rewrite W1, length_app, length_replicate, length_drop. lia. }
    destruct (cancel_worker_effect n (cancel_upto n s) I1)
      as (I2 & W2 & Q2 & D2 & P2 & F2 & E2 & M2); [lia|].
    cbn [cancel_upto]. split; [exact I2|].
    rewrite W2, Q2, D2, P2, F2, E2, M2, W1.
    split; [|auto 10].
    destruct (lookup_lt_is_Some_2 (worker_tasks s) n) as [w Hw]; [lia|].
    rewrite insert_app_r_alt by (rewrite length_replicate; lia).
    rewrite length_replicate, Nat.sub_diag, (drop_S _ _ _ Hw).
    rewrite replicate_S_end, <- app_assoc. reflexivity.
Qed.

Lemma busy_count_cancelled n : busy_count (replicate n WCancelled) = 0.
Proof. induction n as [|n IH]; simpl; [reflexivity | exact IH]. Qed.

(** X16. [shutdown] in a reachable state leaves every worker task
    cancelled and [in_progress] at 0; the jobs in the queue and the
    dead-letter list, the counters and the idempotency table stay as they
    are (jobs held by sleeping workers are dropped), and afterwards no worker
    obtains a job or finishes a retry. *)
Theorem shutdown_cancels_every_worker s :
  reachable s ->
  let s' := shutdown s in
  worker_tasks s' = replicate WORKERS WCancelled /\ in_progress s' = 0 /\
  queue_immediate s' = queue_immediate s /\ dlq s' = dlq s /\
  processed s' = processed s /\ failures s' = failures s /\
  enqueued s' = enqueued s /\ idempotency s' = idempotency s /\
  forall i t u,
    step (EvGet i t u) s' = None /\ step (EvTimer i) s' = None /\
    step (EvPutReady i) s' = None /\ step (EvPutTimeout i) s' = None.
Proof.
  intros Hr. cbv zeta. pose proof (reachable_inv s Hr) as Hi.
  destruct (cancel_upto_effect (length (worker_tasks s)) s Hi (le_n _))
    as (I1 & W1 & Q1 & D1 & P1 & F1 & E1 & M1).
  fold (shutdown s) in *. rewrite drop_all, app_nil_r, (inv_workers s Hi) in W1.
  rewrite W1, Q1, D1, P1, F1, E1, M1.
  split; [reflexivity|]. split.
  { rewrite (inv_progress _ I1), W1. apply busy_count_cancelled. }
  do 6 (split; [reflexivity|]).
  intros i t u.
  assert (Hc : worker_tasks (shutdown s) !! i = Some WCancelled \/
               worker_tasks (shutdown s) !! i = None).
  { rewrite W1. destruct (decide (i < WORKERS)%nat) as [Hlt | Hge].
    - left. apply lookup_replicate_2. exact Hlt.
    - right. apply lookup_ge_None. rewrite length_replicate. lia. }
  simpl. destruct Hc as [-> | ->]; auto.
Qed.

Lemma shutdown_cancels_every_worker_witness :
  worker_tasks (shutdown st_all_backing_off) = replicate WORKERS WCancelled /\
  in_progress (shutdown st_all_backing_off) = 0 /\
  queue_immediate (shutdown st_all_backing_off) = queue_immediate st_all_backing_off.
Proof.
  assert (Hr : reachable st_all_backing_off).
  { exists 0%Q, sched_all_backing_off. vm_compute. reflexivity. }
  destruct (shutdown_cancels_every_worker st_all_backing_off Hr) as (H1 & H2 & H3 & _).
  auto.
Defined.
